(** * Faith-study planner: cohort normaliser, group matcher, move validator

    A shallow embedding of [app.py].  The pure helpers
    ([get_next_faith_study], [has_led], [find_common_slots]) are Rocq
    functions; [process_csv_data] returns in an error monad because one of
    its row accesses can raise.  The move validator is given on the payload
    as it is received ([Payload.validate_move]: an object may lack a key, and
    the lists that hold people are objects in a store), and on payloads
    whose objects carry every key that is read ([validate_move]); the two
    are proved to agree there.

    Text.  A Python [str] is modelled by a Rocq [string] whose characters
    are read as code points below 256.  On that range [is_space] is the
    whitespace class of [str.strip] and [lower_char] is [str.lower].
    [str.capitalize] can leave the range, so its result is a [label]: a
    text whose first code point may lie beyond 255.

    Cells.  A value read from a table or from a JSON payload is a [cell]:
    missing ([NaN], for which [pd.isna] holds), text, or an integer.
    Fractional numbers are left out.

    Maps.  A Python [dict] keyed by text is a [gmap string _]; the
    insertion-ordered [defaultdict] of buckets, whose order decides the group
    ids, is an association list. *)

From Stdlib Require Import Ascii.
From stdpp Require Import gmap strings list fin_maps sorting pretty.

(** ** Python text primitives *)

(** A text that may start with one code point beyond 255: [Plain s] is the
    text [s]; [Wide first rest] is the code point [first], which is 256 or
    more, followed by the text [rest]. *)
Inductive label : Type :=
| Plain (s : string)
| Wide (first : N) (rest : string).

Global Instance label_eq_dec : EqDecision label.
Proof. solve_decision. Defined.

(** The label followed by a text. *)
Definition label_app (l : label) (s : string) : label :=
  match l with
  | Plain s0 => Plain (s0 +:+ s)
  | Wide first rest => Wide first (rest +:+ s)
  end.

Module Py.

Definition is_space (c : ascii) : bool :=
  let n := N_of_ascii c in
  ((9 <=? n) && (n <=? 13) || (28 <=? n) && (n <=? 32)
   || (n =? 133) || (n =? 160))%N.

Definition lower_char (c : ascii) : ascii :=
  let n := N_of_ascii c in
  if ((65 <=? n) && (n <=? 90)
      || (192 <=? n) && (n <=? 222) && negb (n =? 215))%N
  then ascii_of_N (n + 32) else c.

(** [s.lower()] *)
Fixpoint lower (s : string) : string :=
  match s with
  | "" => ""
  | String c s' => String (lower_char c) (lower s')
  end.

(** The title-case form of one character, which [str.capitalize] gives the
    first character: the upper-case letter for a lower-case one, except
    that 223 (sharp s) becomes the two letters Ss, and 181 (micro sign) and
    255 (y with diaeresis) become the code points 924 and 376. *)
Definition title_char (c : ascii) : label :=
  let n := N_of_ascii c in
  if (n =? 223)%N then Plain "Ss"
  else if (n =? 181)%N then Wide 924 ""
  else if (n =? 255)%N then Wide 376 ""
  else if ((97 <=? n) && (n <=? 122)
           || (224 <=? n) && (n <=? 254) && negb (n =? 247))%N
  then Plain (String (ascii_of_N (n - 32)) "")
  else Plain (String c "").

(** [s.capitalize()]: first character in title case, the rest lower-cased. *)
Definition capitalize (s : string) : label :=
  match s with
  | "" => Plain ""
  | String c s' => label_app (title_char c) (lower s')
  end.

(** [l.lower()] on a label.  Of the code points beyond 255 it knows the two
    that [capitalize] makes: 924 becomes 956 and 376 becomes 255; any other
    is taken as having no lower-case form. *)
Definition lower_label (l : label) : label :=
  match l with
  | Plain s => Plain (lower s)
  | Wide first rest =>
      if (first =? 376)%N then Plain (String (ascii_of_N 255) (lower rest))
      else if (first =? 924)%N then Wide 956 (lower rest)
      else Wide first (lower rest)
  end.

Fixpoint lstrip (s : string) : string :=
  match s with
  | "" => ""
  | String c s' => if is_space c then lstrip s' else s
  end.

Fixpoint rstrip (s : string) : string :=
  match s with
  | "" => ""
  | String c s' =>
      match rstrip s' with
      | "" => if is_space c then "" else String c ""
      | r => String c r
      end
  end.

(** [s.strip()] *)
Definition strip (s : string) : string := rstrip (lstrip s).

(** Truth value of a string: non-empty. *)
Definition truthy (s : string) : bool :=
  match s with "" => false | _ => true end.

(** [s.split(",")]: one more piece than there are commas. *)
Fixpoint split_comma (s : string) : list string :=
  match s with
  | "" => [""]
  | String c s' =>
      if Ascii.eqb c "," then "" :: split_comma s'
      else match split_comma s' with
           | [] => [String c ""]
           | piece :: pieces => String c piece :: pieces
           end
  end.

(** [needle in hay] on strings: substring test. *)
Fixpoint contains (needle hay : string) : bool :=
  String.prefix needle hay
  || match hay with
     | "" => false
     | String _ hay' => contains needle hay'
     end.

(** [sorted(l)] on a list of strings: ascending code-point order. *)
Definition sorted (l : list string) : list string :=
  merge_sort String.le l.

End Py.

(** ** Cells *)

Inductive cell : Type :=
| NaN
| Text (s : string)
| Int (z : Z).

Global Instance cell_eq_dec : EqDecision cell.
Proof. solve_decision. Defined.

(** [pd.isna(v)] *)
Definition isna (v : cell) : bool :=
  match v with NaN => true | _ => false end.

(** [str(v)] *)
Definition str (v : cell) : string :=
  match v with
  | NaN => "nan"
  | Text s => s
  | Int z => pretty z
  end.

(** ** Next study and leadership history *)

Definition FAITH_STUDIES : list string :=
  ["discovery"; "source"; "growth"; "trust"; "commission"].

(** [[c.strip().lower() for c in str(v).split(",") if c.strip()]] *)
Definition normalized_names (v : cell) : list string :=
  map (λ c, Py.lower (Py.strip c))
      (List.filter (λ c, Py.truthy (Py.strip c)) (Py.split_comma (str v))).

Definition get_next_faith_study (completed : cell) : option string :=
  if isna completed then head FAITH_STUDIES
  else
    let completed_lower := normalized_names completed in
    List.find (λ study, negb (bool_decide (study ∈ completed_lower)))
              FAITH_STUDIES.

Definition has_led (study : string) (led_str : cell) : bool :=
  if isna led_str then false
  else
    let led_lower := normalized_names led_str in
    bool_decide (study ∈ led_lower).

(** ** Common availability *)

Definition DAY_NAMES : list string :=
  ["monday"; "tuesday"; "wednesday"; "thursday"; "friday"; "saturday";
   "sunday"].

(** The test made on one value of an availability map: present, not blank,
    and some weekday name occurs in its lower-cased text. *)
Definition names_a_day (value : cell) : bool :=
  negb (isna value) && Py.truthy (Py.strip (str value))
  && let value_str := Py.strip (str value) in
     existsb (λ day, Py.contains day (Py.lower value_str)) DAY_NAMES.

(** The slots one person is available on, as the inner loop collects them. *)
Definition available_slots (avail : gmap string cell) : list string :=
  map fst (List.filter (λ sv, names_a_day (snd sv)) (map_to_list avail)).

(** [set.intersection] applied to the unpacked, non-empty list of sets. *)
Definition set_intersection (first : gset string) (rest : list (gset string))
  : gset string :=
  foldl (∩) first rest.

Definition find_common_slots (avail_dicts : list (gmap string cell))
  : list string :=
  match avail_dicts with
  | [] => []
  | _ =>
      let person_available_slots : list (gset string) :=
        map (λ avail, list_to_set (available_slots avail)) avail_dicts in
      match person_available_slots with
      | [] => []
      | first :: rest => Py.sorted (elements (set_intersection first rest))
      end
  end.

(** ** Exceptions *)

Inductive exn : Type :=
| AttributeError (obj : cell)   (* [obj.strip()] on something that is not text *)
| KeyError (key : string).      (* [row[key]] on an absent label *)

Inductive result (A : Type) : Type :=
| Ok (a : A)
| Raise (e : exn).
Arguments Ok {A} a.
Arguments Raise {A} e.

(** Sequencing: the first exception raised ends the computation. *)
Global Instance result_bind : MBind result := λ A B k r,
  match r with
  | Ok a => k a
  | Raise e => Raise e
  end.

(** ** Records *)

Module Person.
Record t : Type := mk {
  id : string;
  first : cell;
  last : cell;
  gender : string;
  email : cell;
  phone : cell;
  year : cell;
  program : cell;
  religion : cell;
  next_study : option string;
  willing_lead : bool;
  already_led : cell;
  avail : gmap string cell
}.
End Person.

Module Details.
Record t : Type := mk {
  name : string;
  email : cell;
  phone : cell;
  year : cell;
  program : cell
}.
End Details.

Module Group.
Record t : Type := mk {
  id : string;
  faith_study : label;
  gender : label;
  leader : option string;
  members : list string;
  common_availabilities : list string;
  member_details : gmap string Details.t
}.
End Group.

(** A table as the normaliser receives it: the ordered column labels, and
    one label-to-cell mapping per row.  Labels are text and pairwise distinct,
    as they are in a table read from a file; a row of a well-formed table has
    a cell for every column, blank cells being [NaN]. *)
Record DataFrame : Type := {
  columns : list string;
  rows : list (gmap string cell)
}.

(** ** Cohort normaliser *)

Definition COL_FIRST : string := "First Name".
Definition COL_LAST : string := "Last Name".
Definition COL_GENDER : string := "Please indicate your gender.".
Definition COL_EMAIL : string := "E-mail Address".
Definition COL_PHONE : string := "Cell Phone Number".
Definition COL_YEAR : string := "What year of study are you currently in?".
Definition COL_PROGRAM : string := "What is your program of study?".
Definition COL_RELIGION : string :=
  "Which religion/faith do you most identify with?".
Definition COL_COMPLETED : string :=
  "Please indicate which faith studies you've completed.".
Definition COL_WILLING : string := "Are you willing to lead a Faith Study?".
Definition COL_LED : string :=
  "Please indicate which faith studies you have led:".

(** [row.get(label, default)] *)
Definition row_get (row : gmap string cell) (label : string) (default : cell)
  : cell :=
  match row !! label with
  | Some v => v
  | None => default
  end.

(** [row[label]] *)
Definition row_item (row : gmap string cell) (label : string) : result cell :=
  match row !! label with
  | Some v => Ok v
  | None => Raise (KeyError label)
  end.

(** [v.strip()] on a cell: only text has the method. *)
Definition cell_strip (v : cell) : result string :=
  match v with
  | Text s => Ok (Py.strip s)
  | _ => Raise (AttributeError v)
  end.

(** [df.columns.get_loc(label)]; [None] stands for the [KeyError]. *)
Definition get_loc (label : string) (cols : list string) : option nat :=
  fst <$> list_find (λ col, col = label) cols.

(** The fallback test on a column label:
    ['timeslot' in col.lower() or '[' in col and ']' in col]. *)
Definition looks_like_slot (col : string) : bool :=
  Py.contains "timeslot" (Py.lower col)
  || (Py.contains "[" col && Py.contains "]" col).

Definition availability_cols (df : DataFrame) : list string :=
  match get_loc COL_LED (columns df) with
  | Some led_col_index => drop (led_col_index + 1) (columns df)
  | None => List.filter looks_like_slot (columns df)
  end.

(** [{col: str(row[col]).strip() for col in cols}], filled left to right. *)
Fixpoint avail_of_row (row : gmap string cell) (cols : list string)
    (acc : gmap string cell) : result (gmap string cell) :=
  match cols with
  | [] => Ok acc
  | col :: cols' =>
      v ← row_item row col;
      avail_of_row row cols' (<[col := Text (Py.strip (str v))]> acc)
  end.

(** The body of the row loop; [n] is [len(people)] at that point.  The
    fields are evaluated in the order of the dictionary display. *)
Definition make_person (cols : list string) (row : gmap string cell) (n : nat)
  : result Person.t :=
  let next_study := get_next_faith_study (row_get row COL_COMPLETED (Text "")) in
  let id := str (row_get row COL_FIRST (Text "")) +:+ "_"
            +:+ str (row_get row COL_LAST (Text "")) +:+ "_" +:+ pretty n in
  gender ← cell_strip (row_get row COL_GENDER (Text ""));
  avail ← avail_of_row row cols ∅;
  Ok {| Person.id := id;
        Person.first := row_get row COL_FIRST (Text "");
        Person.last := row_get row COL_LAST (Text "");
        Person.gender := Py.lower gender;
        Person.email := row_get row COL_EMAIL (Text "");
        Person.phone := row_get row COL_PHONE (Text "");
        Person.year := row_get row COL_YEAR (Text "");
        Person.program := row_get row COL_PROGRAM (Text "");
        Person.religion := row_get row COL_RELIGION (Text "");
        Person.next_study := next_study;
        Person.willing_lead :=
          bool_decide
            (Py.lower (Py.strip (str (row_get row COL_WILLING (Text ""))))
             = "yes");
        Person.already_led := row_get row COL_LED (Text "");
        Person.avail := avail |}.

(** The row loop, started with [people = []]. *)
Fixpoint read_people (cols : list string) (rws : list (gmap string cell))
    (people : list Person.t) : result (list Person.t) :=
  match rws with
  | [] => Ok people
  | row :: rws' =>
      person ← make_person cols row (length people);
      read_people cols rws' (people ++ [person])
  end.

(** ** Group matcher *)

(** The guard of the bucketing loop:
    [p["next_study"] and p["gender"] and p["gender"].strip()]. *)
Definition eligible (p : Person.t) : bool :=
  match Person.next_study p with
  | Some study =>
      Py.truthy study && Py.truthy (Person.gender p)
      && Py.truthy (Py.strip (Person.gender p))
  | None => false
  end.

(** [grouped[key].append(p)] on an insertion-ordered [defaultdict(list)]. *)
Fixpoint grouped_append (key : string * string) (p : Person.t)
    (grouped : list ((string * string) * list Person.t))
  : list ((string * string) * list Person.t) :=
  match grouped with
  | [] => [(key, [p])]
  | (k, members) :: grouped' =>
      if decide (k = key) then (k, members ++ [p]) :: grouped'
      else (k, members) :: grouped_append key p grouped'
  end.

Definition bucket_step (grouped : list ((string * string) * list Person.t))
    (p : Person.t) : list ((string * string) * list Person.t) :=
  match Person.next_study p with
  | Some study =>
      if eligible p then grouped_append (Person.gender p, study) p grouped
      else grouped
  | None => grouped
  end.

Definition bucket_people (people : list Person.t)
  : list ((string * string) * list Person.t) :=
  foldl bucket_step [] people.

(** [itertools.combinations(pool, r)]: the [r]-element subsequences of
    [pool], in lexicographic order of positions. *)
Fixpoint combinations {A : Type} (pool : list A) (r : nat) {struct pool}
  : list (list A) :=
  match r, pool with
  | O, _ => [[]]
  | S _, [] => []
  | S r', x :: pool' =>
      map (cons x) (combinations pool' r') ++ combinations pool' r
  end.

(** The leader loop: the first member who is willing and has not led. *)
Definition choose_leader (study : string) (combo : list Person.t)
  : option string :=
  Person.id <$>
    List.find (λ m, Person.willing_lead m
                    && negb (has_led study (Person.already_led m))) combo.

Definition details_of (m : Person.t) : Details.t :=
  {| Details.name := str (Person.first m) +:+ " " +:+ str (Person.last m);
     Details.email := Person.email m;
     Details.phone := Person.phone m;
     Details.year := Person.year m;
     Details.program := Person.program m |}.

Definition make_group (group_counter : nat) (gender study : string)
    (combo : list Person.t) (common : list string) : Group.t :=
  {| Group.id := "G" +:+ pretty group_counter;
     Group.faith_study := Py.capitalize study;
     Group.gender := Py.capitalize gender;
     Group.leader := choose_leader study combo;
     Group.members := map Person.id combo;
     Group.common_availabilities := common;
     Group.member_details :=
       foldl (λ d m, <[Person.id m := details_of m]> d) ∅ combo |}.

(** The combination loop of one size: the first combination whose members
    share a slot, with that slot list; the loop is left there. *)
Fixpoint first_valid (combos : list (list Person.t))
  : option (list Person.t * list string) :=
  match combos with
  | [] => None
  | combo :: combos' =>
      let common := find_common_slots (map Person.avail combo) in
      match common with
      | [] => first_valid combos'
      | _ :: _ => Some (combo, common)
      end
  end.

(** [range(5, 1, -1)] *)
Definition SIZES : list nat := [5; 4; 3; 2].

(** One round of the size loop; the state is [(results, group_counter)]. *)
Definition size_step (gender study : string) (members : list Person.t)
    (st : list Group.t * nat) (size : nat) : list Group.t * nat :=
  let '(results, group_counter) := st in
  match first_valid (combinations members size) with
  | Some (combo, common) =>
      (results ++ [make_group group_counter gender study combo common],
       S group_counter)
  | None => st
  end.

(** The size loop for one bucket. *)
Definition match_bucket (st : list Group.t * nat)
    (bucket : (string * string) * list Person.t) : list Group.t * nat :=
  let '((gender, study), members) := bucket in
  foldl (size_step gender study members) st SIZES.

(** The bucket loop, started with [results = []], [group_counter = 1]. *)
Definition match_groups (grouped : list ((string * string) * list Person.t))
  : list Group.t :=
  fst (foldl match_bucket ([], 1) grouped).

Definition process_csv_data (df : DataFrame)
  : result (list Group.t * list Person.t) :=
  people ← read_people (availability_cols df) (rows df) [];
  Ok (match_groups (bucket_people people), people).

(** ** Upload handler, from the parsed table onwards *)

Definition REQUIRED_COLUMNS : list string :=
  [COL_FIRST; COL_LAST; COL_GENDER; COL_COMPLETED; COL_WILLING].

Inductive upload_error : Type :=
| MissingColumns (missing_columns : list string)
    (* 'Missing required columns: ' and the labels joined by ', ' *)
| NoValidPeople
    (* 'No valid people found in the data' *)
| ProcessingError (e : exn).
    (* 'Error processing file: ' and the text of the exception *)

Inductive upload_response : Type :=
| UploadError (status : nat) (error : upload_error)
| UploadSuccess (groups : list Group.t) (people : list Person.t)
    (total_people total_groups : nat).

Definition upload_file (df : DataFrame) : upload_response :=
  let missing_columns :=
    List.filter (λ col, negb (bool_decide (col ∈ columns df)))
                REQUIRED_COLUMNS in
  match missing_columns with
  | _ :: _ => UploadError 400 (MissingColumns missing_columns)
  | [] =>
      match process_csv_data df with
      | Raise e => UploadError 500 (ProcessingError e)
      | Ok (groups, people) =>
          match people with
          | [] => UploadError 400 NoValidPeople
          | _ :: _ =>
              UploadSuccess groups people (length people) (length groups)
          end
      end
  end.

(** ** Move validator, on payloads whose objects carry every key read *)

(** The request payload; the handler only ever reads it. *)
Record MoveRequest : Type := {
  person_id : string;
  from_group_id : string;
  to_group_id : string;
  groups : list Group.t;
  people : list Person.t
}.

Inductive MoveResponse : Type :=
| Invalid (reason : string)
| Valid (common_slots : list string).

(** State monad over the payload: a handler step yields a value and the
    payload as it is after the step. *)
Definition Handler (A : Type) : Type := MoveRequest → A * MoveRequest.

Global Instance handler_ret : MRet Handler := λ A a data, (a, data).
Global Instance handler_bind : MBind Handler := λ A B k m data,
  let '(a, data') := m data in k a data'.
(** [data.get(field)] *)
Definition data_get {A} (field : MoveRequest → A) : Handler A :=
  λ data, (field data, data).

Definition REASON_NOT_FOUND : string := "Person or group not found".
Definition REASON_MISMATCH : string := "Gender or faith study mismatch".
Definition REASON_FULL : string := "Target group is full (max 5 people)".
Definition REASON_TOO_SMALL : string :=
  "Source group would be too small (min 2 people)".
Definition REASON_NO_SLOT : string := "No common availability slots".

(** [next((p for p in people if p['id'] == person_id), None)] *)
Definition find_person (people : list Person.t) (person_id : string)
  : option Person.t :=
  List.find (λ p, bool_decide (Person.id p = person_id)) people.

Definition find_group (groups : list Group.t) (group_id : string)
  : option Group.t :=
  List.find (λ g, bool_decide (Group.id g = group_id)) groups.

(** The body after the three lookups succeeded. *)
Definition check_move (people : list Person.t) (person : Person.t)
    (from_group to_group : Group.t) : MoveResponse :=
  if negb (bool_decide (Plain (Person.gender person)
                        = Py.lower_label (Group.gender to_group)))
     || negb (bool_decide (Plain <$> Person.next_study person
                           = Some (Py.lower_label
                                     (Group.faith_study to_group))))
  then Invalid REASON_MISMATCH
  else if bool_decide (5 ≤ length (Group.members to_group))
  then Invalid REASON_FULL
  else if bool_decide (length (Group.members from_group) ≤ 2)
  then Invalid REASON_TOO_SMALL
  else
    let to_group_members :=
      List.filter (λ p, bool_decide (Person.id p ∈ Group.members to_group))
                  people in
    let to_group_members := to_group_members ++ [person] in
    let common_slots :=
      find_common_slots (map Person.avail to_group_members) in
    match common_slots with
    | [] => Invalid REASON_NO_SLOT
    | _ :: _ => Valid common_slots
    end.

Definition validate_move : Handler MoveResponse :=
  person_id ← data_get person_id;
  from_group_id ← data_get from_group_id;
  to_group_id ← data_get to_group_id;
  groups ← data_get groups;
  people ← data_get people;
  let person := find_person people person_id in
  let from_group := find_group groups from_group_id in
  let to_group := find_group groups to_group_id in
  match person, from_group, to_group with
  | Some person, Some from_group, Some to_group =>
      mret (check_move people person from_group to_group)
  | _, _, _ => mret (Invalid REASON_NOT_FOUND)
  end.

(** ** Move validator, on the payload as received

    The people and groups of a payload are JSON objects, and an object may
    lack a key: reading an absent key raises [KeyError].  A key that is
    present holds a value of the kind the matcher writes.  The lists that
    hold people are objects in a store, so that an append to one of them is
    seen wherever that list is referenced.  The handler has no exception
    handler of its own. *)

Module Payload.

(** A person object: the keys the validator reads. *)
Record person : Type := {
  p_id : option string;
  p_gender : option string;
  p_next_study : option (option string);   (* absent, null, or a study *)
  p_avail : option (gmap string cell)
}.

(** A group object: the keys the validator reads. *)
Record group : Type := {
  g_id : option string;
  g_faith_study : option label;
  g_gender : option label;
  g_members : option (list string)
}.

(** The request: [data.get(key)] gives [None] for an absent id; [people] is
    a reference to the list object. *)
Record request : Type := {
  person_id : option string;
  from_group_id : option string;
  to_group_id : option string;
  groups : list group;
  people : nat
}.

(** A step of the handler: it returns or raises, and leaves a store. *)
Definition M (A : Type) : Type :=
  gmap nat (list person) → result A * gmap nat (list person).

Global Instance M_ret : MRet M := λ A a h, (Ok a, h).
Global Instance M_bind : MBind M := λ A B k m h,
  match m h with
  | (Ok a, h') => k a h'
  | (Raise e, h') => (Raise e, h')
  end.

Definition lift {A} (r : result A) : M A := λ h, (r, h).

(** [obj[key]] *)
Definition item {A} (field : option A) (key : string) : result A :=
  match field with
  | Some v => Ok v
  | None => Raise (KeyError key)
  end.

(** Going through a list object; a reference that points nowhere, which a
    payload never holds, reads as the empty list. *)
Definition read (l : nat) : M (list person) :=
  λ h, (Ok (default [] (h !! l)), h).

(** A list display or comprehension makes a new list object. *)
Definition alloc (ps : list person) : M nat :=
  λ h, let l := fresh (dom h) in (Ok l, <[l := ps]> h).

(** [l.append(p)] *)
Definition append (l : nat) (p : person) : M unit :=
  λ h, (Ok (), alter (λ ps, ps ++ [p]) l h).

(** [next((p for p in people if p['id'] == person_id), None)]: the objects
    after the first match are not looked at. *)
Fixpoint next_person (ps : list person) (person_id : option string)
  : result (option person) :=
  match ps with
  | [] => Ok None
  | p :: ps' =>
      id ← item (p_id p) "id";
      if bool_decide (Some id = person_id) then Ok (Some p)
      else next_person ps' person_id
  end.

Fixpoint next_group (gs : list group) (group_id : option string)
  : result (option group) :=
  match gs with
  | [] => Ok None
  | g :: gs' =>
      id ← item (g_id g) "id";
      if bool_decide (Some id = group_id) then Ok (Some g)
      else next_group gs' group_id
  end.

(** [[p for p in people if p['id'] in to_group['members']]] *)
Fixpoint listed (ps : list person) (to_group : group)
  : result (list person) :=
  match ps with
  | [] => Ok []
  | p :: ps' =>
      id ← item (p_id p) "id";
      members ← item (g_members to_group) "members";
      rest ← listed ps' to_group;
      Ok (if bool_decide (id ∈ members) then p :: rest else rest)
  end.

(** [[m['avail'] for m in to_group_members]] *)
Fixpoint avails (ms : list person) : result (list (gmap string cell)) :=
  match ms with
  | [] => Ok []
  | m :: ms' =>
      avail ← item (p_avail m) "avail";
      rest ← avails ms';
      Ok (avail :: rest)
  end.

(** The gender and study test; [or] does not read its right side when the
    left side holds. *)
Definition mismatch (person : person) (to_group : group) : result bool :=
  gender ← item (p_gender person) "gender";
  to_gender ← item (g_gender to_group) "gender";
  if negb (bool_decide (Plain gender = Py.lower_label to_gender)) then Ok true
  else
    next_study ← item (p_next_study person) "next_study";
    faith_study ← item (g_faith_study to_group) "faith_study";
    Ok (negb (bool_decide (Plain <$> next_study
                           = Some (Py.lower_label faith_study)))).

(** The availability test: the listed people in a new list, the person
    appended to it. *)
Definition check_availability (data : request) (person : person)
    (to_group : group) : M MoveResponse :=
  ps ← read (people data);
  to_group_members ← lift (listed ps to_group);
  to_group_members ← alloc to_group_members;
  _ ← append to_group_members person;
  ms ← read to_group_members;
  avail_dicts ← lift (avails ms);
  let common_slots := find_common_slots avail_dicts in
  match common_slots with
  | [] => mret (Invalid REASON_NO_SLOT)
  | _ :: _ => mret (Valid common_slots)
  end.

Definition validate_move (data : request) : M MoveResponse :=
  ps ← read (people data);
  person ← lift (next_person ps (person_id data));
  from_group ← lift (next_group (groups data) (from_group_id data));
  to_group ← lift (next_group (groups data) (to_group_id data));
  match person, from_group, to_group with
  | Some person, Some from_group, Some to_group =>
      differ ← lift (mismatch person to_group);
      if differ : bool then mret (Invalid REASON_MISMATCH)
      else
        to_members ← lift (item (g_members to_group) "members");
        if bool_decide (5 ≤ length to_members)
        then mret (Invalid REASON_FULL)
        else
          from_members ← lift (item (g_members from_group) "members");
          if bool_decide (length from_members ≤ 2)
          then mret (Invalid REASON_TOO_SMALL)
          else check_availability data person to_group
  | _, _, _ => mret (Invalid REASON_NOT_FOUND)
  end.

End Payload.

(** ** Vocabulary of the statements *)

(** [", ".join(pieces)] with a one-character separator [","]. *)
Fixpoint join_comma (pieces : list string) : string :=
  match pieces with
  | [] => ""
  | [piece] => piece
  | piece :: pieces' => piece +:+ String "," (join_comma pieces')
  end.

(** The text has no comma, so it is a single piece of a comma-separated
    list. *)
Fixpoint comma_free (s : string) : bool :=
  match s with
  | "" => true
  | String c s' => negb (Ascii.eqb c ",") && comma_free s'
  end.

(** Two pieces that differ only by letter case and surrounding
    whitespace. *)
Definition same_up_to_case_and_space (piece piece' : string) : Prop :=
  Py.lower (Py.strip piece) = Py.lower (Py.strip piece').

(** [study] occurs in the completed-studies cell: some comma-separated
    piece of its text is [study] once stripped and lower-cased. *)
Definition completed_has (completed : cell) (study : string) : Prop :=
  ∃ piece, piece ∈ Py.split_comma (str completed)
           ∧ Py.lower (Py.strip piece) = study.

(** [x] is the first element of [l] that satisfies [P]. *)
Definition first_such {A : Type} (P : A → Prop) (l : list A) (x : A) : Prop :=
  ∃ before after, l = before ++ x :: after ∧ P x ∧ ∀ y, y ∈ before → ¬ P y.

(** The text of the value contains a weekday name, whatever the case. *)
Definition names_weekday (value : cell) : Prop :=
  ∃ day before after,
    day ∈ DAY_NAMES ∧ Py.lower (str value) = before +:+ day +:+ after.

(** The slots a person is free on: those whose value names a weekday. *)
Definition free_on (avail : gmap string cell) (slot : string) : Prop :=
  ∃ value, avail !! slot = Some value ∧ names_weekday value.

(** Shapes of text used by the stripping lemmas: only whitespace; first
    character not whitespace; last character not whitespace. *)
Fixpoint all_space (s : string) : bool :=
  match s with
  | "" => true
  | String c s' => Py.is_space c && all_space s'
  end.

Definition starts_solid (s : string) : bool :=
  match s with
  | "" => false
  | String c _ => negb (Py.is_space c)
  end.

Fixpoint ends_solid (s : string) : bool :=
  match s with
  | "" => false
  | String c "" => negb (Py.is_space c)
  | String _ s' => ends_solid s'
  end.

(** Two groups that agree on everything but the stored slot list. *)
Definition same_but_stored_slots (g g' : Group.t) : Prop :=
  Group.id g = Group.id g'
  ∧ Group.faith_study g = Group.faith_study g'
  ∧ Group.gender g = Group.gender g'
  ∧ Group.leader g = Group.leader g'
  ∧ Group.members g = Group.members g'
  ∧ Group.member_details g = Group.member_details g'.

(** Two requests that differ at most in the stored slot lists of their
    groups. *)
Definition differ_only_in_stored_slots (data data' : MoveRequest) : Prop :=
  person_id data = person_id data'
  ∧ from_group_id data = from_group_id data'
  ∧ to_group_id data = to_group_id data'
  ∧ people data = people data'
  ∧ Forall2 same_but_stored_slots (groups data) (groups data').

(** ** Sample data *)

Module Sample.

Definition SLOT : string := "Timeslot [Mon 9am]".

Definition COLUMNS : list string :=
  [COL_FIRST; COL_LAST; COL_GENDER; COL_COMPLETED; COL_WILLING; COL_LED;
   SLOT].

Definition row (first gender completed willing led slot : cell)
  : gmap string cell :=
  {[ COL_FIRST := first; COL_LAST := Text "Doe"; COL_GENDER := gender;
     COL_COMPLETED := completed; COL_WILLING := willing; COL_LED := led;
     SLOT := slot ]}.

Definition woman (first : string) (willing : string) : gmap string cell :=
  row (Text first) (Text "Female") NaN (Text willing) NaN (Text "Mondays").

(** Three women starting the first study, all free on the one slot. *)
Definition three : DataFrame :=
  {| columns := COLUMNS;
     rows := [woman "Ann" "no"; woman "Bea" "Yes"; woman "Cat" "yes"] |}.

(** Five such women. *)
Definition five : DataFrame :=
  {| columns := COLUMNS;
     rows := [woman "Ann" "no"; woman "Bea" "Yes"; woman "Cat" "yes";
              woman "Dee" "no"; woman "Eve" "no"] |}.

(** Five people whose gender cell is the one letter sharp s. *)
Definition sharp (first : string) : gmap string cell :=
  row (Text first) (Text (String "223"%char "")) NaN (Text "no") NaN
      (Text "Mondays").

Definition five_sharp : DataFrame :=
  {| columns := COLUMNS;
     rows := [sharp "Ann"; sharp "Bea"; sharp "Cat"; sharp "Dee";
              sharp "Eve"] |}.

(** One row whose gender cell was left blank in the sheet. *)
Definition blank_gender : DataFrame :=
  {| columns := COLUMNS;
     rows := [woman "Ann" "no";
              row (Text "Bea") NaN NaN (Text "no") NaN (Text "Mondays")] |}.

(** One row, whose gender is only whitespace: nobody is eligible. *)
Definition nobody_eligible : DataFrame :=
  {| columns := COLUMNS;
     rows := [row (Text "Ann") (Text "  ") NaN (Text "no") NaN
                  (Text "Mondays")] |}.

(** No row at all. *)
Definition no_rows : DataFrame := {| columns := COLUMNS; rows := [] |}.

Definition person (id : string) : Person.t :=
  {| Person.id := id; Person.first := Text id; Person.last := Text "Doe";
     Person.gender := "female"; Person.email := NaN; Person.phone := NaN;
     Person.year := NaN; Person.program := NaN; Person.religion := NaN;
     Person.next_study := Some "discovery"; Person.willing_lead := false;
     Person.already_led := NaN;
     Person.avail := {[ SLOT := Text "Mondays" ]} |}.

Definition group (id : string) (members stored : list string) : Group.t :=
  {| Group.id := id; Group.faith_study := Plain "Discovery";
     Group.gender := Plain "Female"; Group.leader := None;
     Group.members := members; Group.common_availabilities := stored;
     Group.member_details := ∅ |}.

Definition cohort : list Person.t :=
  [person "ann"; person "bea"; person "cat"; person "dee"; person "eve"].

(** Two people's availability maps. *)
Definition avail_dicts : list (gmap string cell) :=
  [ {[ "Tue 5pm" := Text "Tuesdays"; "Mon 9am" := Text " MONDAYS ";
       "Wed 1pm" := Text "maybe" ]};
    {[ "Mon 9am" := Text "monday, friday"; "Tue 5pm" := Text "Tuesday";
       "Wed 1pm" := Text "wednesday" ]} ].

(** Moving a member of G1 to G2. *)
Definition move_cat : MoveRequest :=
  {| person_id := "cat"; from_group_id := "G1"; to_group_id := "G2";
     groups := [group "G1" ["ann"; "bea"; "cat"] [SLOT];
                group "G2" ["dee"; "eve"] [SLOT]];
     people := cohort |}.

(** The same request with stale stored slot lists. *)
Definition move_cat_stale : MoveRequest :=
  {| person_id := "cat"; from_group_id := "G1"; to_group_id := "G2";
     groups := [group "G1" ["ann"; "bea"; "cat"] [];
                group "G2" ["dee"; "eve"] ["Timeslot [Fri 3pm]"]];
     people := cohort |}.

(** Asking to move, from G1 to G2, somebody who sits in G2 already. *)
Definition move_dee : MoveRequest :=
  {| person_id := "dee"; from_group_id := "G1"; to_group_id := "G2";
     groups := [group "G1" ["ann"; "bea"; "cat"] [SLOT];
                group "G2" ["dee"; "eve"] [SLOT]];
     people := cohort |}.

End Sample.

(** The bucket key of a person that has a next study. *)
Definition in_bucket (key : string * string) (p : Person.t) : bool :=
  eligible p
  && bool_decide (Person.next_study p = Some key.2 ∧ Person.gender p = key.1).

(** The groups the size loop appends for one bucket when it is entered with
    the counter at [group_counter]. *)
Definition emitted (group_counter : nat)
    (bucket : (string * string) * list Person.t) : list Group.t :=
  fst (match_bucket ([], group_counter) bucket).

(** The led-studies cell of the person names [study]: the cell is not
    missing, and one of the comma-separated pieces of its text is the study
    once stripped and lower-cased. *)
Definition led_before (m : Person.t) (study : string) : Prop :=
  Person.already_led m ≠ NaN ∧ study ≠ ""
  ∧ completed_has (Person.already_led m) study.

(** Being able to lead [study]: willing, and not having led it before. *)
Definition can_lead (study : string) (m : Person.t) : Prop :=
  Person.willing_lead m = true ∧ ¬ led_before m study.

(** Everybody in [members] is free on [slot]. *)
Definition all_free_on (members : list Person.t) (slot : string) : Prop :=
  ∀ m, m ∈ members → free_on (Person.avail m) slot.

(** What the bucketing loop has built after the people [seen]: one entry per
    key that occurs, holding the eligible people of that key in their
    original order. *)
Definition bucketed (grouped : list ((string * string) * list Person.t))
    (seen : list Person.t) : Prop :=
  NoDup (map fst grouped)
  ∧ ∀ key members,
      (key, members) ∈ grouped ↔
      members ≠ [] ∧ members = List.filter (in_bucket key) seen.

(** What one bucket contributes to the results: at most one group for each
    size tried, in the order of the sizes, labelled after the bucket and
    made of its people; and the first five, four, three and two people when
    the bucket has five or more people who are all free on one slot. *)
Definition bucket_yield (bucket : (string * string) * list Person.t)
    (new : list Group.t) : Prop :=
  let '((gender, study), members) := bucket in
  map (λ g, length (Group.members g)) new `sublist_of` SIZES
  ∧ length new ≤ 4
  ∧ (∀ g, g ∈ new →
          Group.gender g = Py.capitalize gender
          ∧ Group.faith_study g = Py.capitalize study
          ∧ ∃ combo, combo `sublist_of` members
                     ∧ Group.members g = map Person.id combo)
  ∧ (5 ≤ length members → (∃ slot, all_free_on members slot) →
     map Group.members new
     = map (λ size, map Person.id (take size members)) SIZES).

(** ** Vocabulary of the validator's statements *)

(** The people the validator puts together for the availability test: the
    person to move, and the people of the snapshot whose id the destination
    group lists. *)
Definition joined (ps : list Person.t) (to_group : Group.t)
    (person q : Person.t) : Prop :=
  q = person ∨ (q ∈ ps ∧ Person.id q ∈ Group.members to_group).

(** All of them are free on [slot]. *)
Definition joined_free_on (ps : list Person.t) (to_group : Group.t)
    (person : Person.t) (slot : string) : Prop :=
  ∀ q, joined ps to_group person q → free_on (Person.avail q) slot.

(** The objects of a payload that carry every key the validator reads. *)
Definition payload_of_person (p : Person.t) : Payload.person :=
  {| Payload.p_id := Some (Person.id p);
     Payload.p_gender := Some (Person.gender p);
     Payload.p_next_study := Some (Person.next_study p);
     Payload.p_avail := Some (Person.avail p) |}.

Definition payload_of_group (g : Group.t) : Payload.group :=
  {| Payload.g_id := Some (Group.id g);
     Payload.g_faith_study := Some (Group.faith_study g);
     Payload.g_gender := Some (Group.gender g);
     Payload.g_members := Some (Group.members g) |}.

(** The payload of a request, its list of people being the list object at
    [l]. *)
Definition payload_of_request (data : MoveRequest) (l : nat)
  : Payload.request :=
  {| Payload.person_id := Some (person_id data);
     Payload.from_group_id := Some (from_group_id data);
     Payload.to_group_id := Some (to_group_id data);
     Payload.groups := map payload_of_group (groups data);
     Payload.people := l |}.

(** The store that holds the people of a request at [l] and nothing else. *)
Definition store_of_request (data : MoveRequest) (l : nat)
  : gmap nat (list Payload.person) :=
  {[ l := map payload_of_person (people data) ]}.

(** The store [h'] holds every list object of [h], with the items it had:
    nothing that existed was appended to, emptied or replaced. *)
Definition keeps (h h' : gmap nat (list Payload.person)) : Prop :=
  ∀ l, is_Some (h !! l) → h' !! l = h !! l.

(** The text starts with 223 (sharp s) or 181 (micro sign): the two first
    characters whose capitalised form does not lower-case back to them. *)
Definition starts_sharp_s_or_micro (s : string) : Prop :=
  ∃ c rest, s = String c rest
            ∧ (N_of_ascii c = 223%N ∨ N_of_ascii c = 181%N).

Module BadPayload.

(** A person object without an id, ahead of the person to move. *)
Definition nameless : Payload.person :=
  {| Payload.p_id := None; Payload.p_gender := Some "female";
     Payload.p_next_study := Some (Some "discovery");
     Payload.p_avail := Some ∅ |}.

Definition store : gmap nat (list Payload.person) :=
  {[ 0 := nameless :: map payload_of_person Sample.cohort ]}.

Definition request : Payload.request :=
  {| Payload.person_id := Some "cat";
     Payload.from_group_id := Some "G1";
     Payload.to_group_id := Some "G2";
     Payload.groups := map payload_of_group (groups Sample.move_cat);
     Payload.people := 0 |}.

End BadPayload.

(** ** Export, up to the rows handed to the CSV writer *)

(** [sep.join(pieces)] *)
Fixpoint str_join (sep : string) (pieces : list string) : string :=
  match pieces with
  | [] => ""
  | [piece] => piece
  | piece :: pieces' => piece +:+ sep +:+ str_join sep pieces'
  end.

Module ExportRow.
Record t : Type := mk {
  group_id : string;        (* 'Group ID' *)
  faith_study : label;      (* 'Faith Study' *)
  gender : label;           (* 'Gender' *)
  leader : string;          (* 'Leader' *)
  members : string;         (* 'Members' *)
  common_availabilities : string   (* 'Common Availabilities' *)
}.
End ExportRow.

(** The leader cell: ["None"] unless the leader field is a non-empty id,
    then the name stored for that id, or ["Unknown"] when none is stored. *)
Definition leader_name (group : Group.t) : string :=
  match Group.leader group with
  | Some leader =>
      if Py.truthy leader then
        match Group.member_details group !! leader with
        | Some leader_details => Details.name leader_details
        | None => "Unknown"
        end
      else "None"
  | None => "None"
  end.

(** The names of the members that have an entry in [member_details]. *)
Definition member_names (group : Group.t) : list string :=
  omap (λ member_id, Details.name <$> Group.member_details group !! member_id)
       (Group.members group).

Definition export_row (group : Group.t) : ExportRow.t :=
  {| ExportRow.group_id := Group.id group;
     ExportRow.faith_study := Group.faith_study group;
     ExportRow.gender := Group.gender group;
     ExportRow.leader := leader_name group;
     ExportRow.members := str_join ", " (member_names group);
     ExportRow.common_availabilities :=
       str_join ", " (Group.common_availabilities group) |}.

(** The list [export_data] that [export_groups] builds from the payload's
    groups; writing it to a temporary CSV file is left out. *)
Definition export_groups (groups : list Group.t) : list ExportRow.t :=
  map export_row groups.

(** ** Vocabulary of the further statements *)

(** The display name of a person, as the matcher stores it. *)
Definition display_name (m : Person.t) : string :=
  Details.name (details_of m).

(** Some combination of [size] people of [members] has a common slot. *)
Definition some_share (members : list Person.t) (size : nat) : Prop :=
  ∃ combo, combo ∈ combinations members size
           ∧ find_common_slots (map Person.avail combo) ≠ [].

(** The row is one the row loop can read: its gender cell, when there is
    one, is text, and it has a cell for every availability column. *)
Definition readable_row (cols : list string) (row : gmap string cell) : Prop :=
  (∃ s, row_get row COL_GENDER (Text "") = Text s)
  ∧ ∀ col, col ∈ cols → is_Some (row !! col).

(** Only decimal digits. *)
Fixpoint all_digits (s : string) : bool :=
  match s with
  | "" => true
  | String c s' => bool_decide (is_Some (Ascii.is_nat c)) && all_digits s'
  end.

(** No underscore in the text. *)
Fixpoint underscore_free (s : string) : bool :=
  match s with
  | "" => true
  | String c s' => negb (Ascii.eqb c "_") && underscore_free s'
  end.

(** * Properties *)

(** ** Text *)

Section text.

Lemma is_space_lower_char c : Py.is_space (Py.lower_char c) = Py.is_space c.
Proof. by destruct c as [[] [] [] [] [] [] [] []]. Qed.

Lemma truthy_lower s : Py.truthy (Py.lower s) = Py.truthy s.
Proof. by destruct s. Qed.

Lemma lower_lstrip s : Py.lower (Py.lstrip s) = Py.lstrip (Py.lower s).
Proof.
  induction s as [|c s IH]; [done|]. simpl.
  rewrite is_space_lower_char. by destruct (Py.is_space c).
Qed.

Lemma lower_rstrip s : Py.lower (Py.rstrip s) = Py.rstrip (Py.lower s).
Proof.
  induction s as [|c s IH]; [done|]. simpl.
  rewrite <- IH, is_space_lower_char.
  destruct (Py.rstrip s); simpl; [by destruct (Py.is_space c)|done].
Qed.

Lemma lower_strip s : Py.lower (Py.strip s) = Py.strip (Py.lower s).
Proof. unfold Py.strip. by rewrite lower_rstrip, lower_lstrip. Qed.

Lemma split_comma_cons c s :
  Py.split_comma (String c s)
  = if Ascii.eqb c "," then "" :: Py.split_comma s
    else match Py.split_comma s with
         | [] => [String c ""]
         | piece :: pieces => String c piece :: pieces
         end.
Proof. done. Qed.

Lemma comma_free_cons c s :
  comma_free (String c s) = negb (Ascii.eqb c ",") && comma_free s.
Proof. done. Qed.

Lemma split_comma_free s : comma_free s = true → Py.split_comma s = [s].
Proof.
  induction s as [|c s IH]; [done|].
  rewrite split_comma_cons, comma_free_cons.
  destruct (Ascii.eqb c ","); [done|]. simpl. by intros ->%IH.
Qed.

Lemma split_comma_piece piece rest :
  comma_free piece = true →
  Py.split_comma (piece +:+ String "," rest) = piece :: Py.split_comma rest.
Proof.
  induction piece as [|c piece IH]; [done|]. rewrite comma_free_cons.
  destruct (Ascii.eqb c ",") eqn:Hc; [done|]. cbn [negb andb].
  intros Hfree.
  change (String c piece +:+ String "," rest)
    with (String c (piece +:+ String "," rest)).
  by rewrite split_comma_cons, Hc, (IH Hfree).
Qed.

(** Splitting a joined list of comma-free pieces gives the pieces back. *)
Lemma split_join_comma pieces :
  pieces ≠ [] → Forall (λ p, comma_free p = true) pieces →
  Py.split_comma (join_comma pieces) = pieces.
Proof.
  induction pieces as [|p pieces IH]; [done|]. intros _ Hfree.
  apply Forall_cons in Hfree as [Hp Hfree].
  destruct pieces as [|q pieces]; [by apply split_comma_free|].
  change (join_comma (p :: q :: pieces))
    with (p +:+ String "," (join_comma (q :: pieces))).
  rewrite split_comma_piece by done. f_equal. by apply IH.
Qed.

End text.

(** Case analysis on membership in a list given by its elements. *)
Ltac list_cases H :=
  repeat (apply elem_of_cons in H as [H|H]; [try discriminate H; try subst|]);
  try (by apply elem_of_nil in H).

(** ** First match in a list *)

Section first_such.
Context {A : Type}.
Implicit Types (f : A → bool) (l : list A).

Lemma find_first_such f l x :
  List.find f l = Some x ↔ first_such (λ y, f y = true) l x.
Proof.
  split.
  - induction l as [|a l IH]; [done|]. simpl.
    destruct (f a) eqn:Hfa.
    + intros [= ->]. exists [], l. split_and!; [done|done|]. by intros y ?%elem_of_nil.
    + intros (before & after & -> & Hx & Hbefore)%IH.
      exists (a :: before), after. split_and!; [done|done|].
      intros y [->|Hy]%elem_of_cons; [congruence|by apply Hbefore].
  - intros (before & after & -> & Hx & Hbefore).
    induction before as [|a before IH]; simpl; [by rewrite Hx|].
    destruct (f a) eqn:Hfa.
    + destruct (Hbefore a); [left|done].
    + apply IH. intros y Hy. apply Hbefore. by right.
Qed.

Lemma find_none_iff f l :
  List.find f l = None ↔ ∀ y, y ∈ l → f y = false.
Proof.
  induction l as [|a l IH]; simpl.
  - split; [by intros _ y ?%elem_of_nil|done].
  - destruct (f a) eqn:Hfa.
    + split; [done|]. intros H. specialize (H a). rewrite Hfa in H.
      by discriminate H; left.
    + rewrite IH. split.
      * by intros H y [->|?]%elem_of_cons; [|apply H].
      * intros H y ?. apply H. by right.
Qed.

Lemma first_such_ext (P Q : A → Prop) l x :
  (∀ y, y ∈ l → P y ↔ Q y) → first_such P l x → first_such Q l x.
Proof.
  intros HPQ (before & after & -> & Hx & Hbefore).
  exists before, after. split_and!; [done| |].
  - apply HPQ; [|done]. apply elem_of_app. right. by left.
  - intros y Hy HQ. apply (Hbefore y Hy), HPQ; [|done].
    apply elem_of_app. by left.
Qed.

Lemma first_such_elem (P : A → Prop) l x : first_such P l x → x ∈ l ∧ P x.
Proof.
  intros (before & after & -> & Hx & _). split; [|done].
  apply elem_of_app. right. by left.
Qed.

Lemma first_such_unique (P : A → Prop) l x y :
  first_such P l x → first_such P l y → x = y.
Proof.
  intros (b1 & a1 & -> & Hx & Hb1) (b2 & a2 & Heq & Hy & Hb2).
  revert b2 Heq Hb2. induction b1 as [|z b1 IH]; intros [|z' b2] Heq Hb2;
    injection Heq as Hhd Htl.
  - done.
  - subst z'. destruct (Hb2 x); [by left|done].
  - subst z. destruct (Hb1 y); [by left|done].
  - apply (IH (λ w Hw, Hb1 w (list_elem_of_further _ _ _ Hw)) b2 Htl).
    intros w Hw. apply Hb2. by right.
Qed.
End first_such.

(** ** Next study *)

Section next_study.

Lemma elem_of_normalized_names v s :
  s ∈ normalized_names v ↔
  ∃ piece, piece ∈ Py.split_comma (str v) ∧ Py.strip piece ≠ ""
           ∧ Py.lower (Py.strip piece) = s.
Proof.
  unfold normalized_names. rewrite list_elem_of_fmap. split.
  - intros (piece & -> & Hin). apply list_elem_of_In, filter_In in Hin.
    destruct Hin as [Hin Hne]. exists piece.
    split_and!; [by apply list_elem_of_In| |done].
    intros Heq. by rewrite Heq in Hne.
  - intros (piece & Hin & Hne & <-). exists piece. split; [done|].
    apply list_elem_of_In, filter_In. split; [by apply list_elem_of_In|].
    by destruct (Py.strip piece).
Qed.

Lemma normalized_names_completed v study :
  study ≠ "" → study ∈ normalized_names v ↔ completed_has v study.
Proof.
  intros Hne. rewrite elem_of_normalized_names. unfold completed_has.
  split.
  - intros (piece & ? & _ & ?). by exists piece.
  - intros (piece & ? & Heq). exists piece. split_and!; [done| |done].
    intros Hempty. rewrite Hempty in Heq. by subst study.
Qed.

Lemma has_led_led_before study (m : Person.t) :
  has_led study (Person.already_led m) = true ↔ led_before m study.
Proof.
  unfold has_led, led_before.
  destruct (Person.already_led m) as [|text|number] eqn:Hcell; simpl.
  - split; [done|]. by intros [? _].
  - rewrite bool_decide_eq_true, elem_of_normalized_names. split.
    + intros (piece & Hin & Hne & Heq). split_and!; [done| |by exists piece].
      intros ->. by destruct (Py.strip piece).
    + intros (_ & Hne & piece & Hin & Heq). exists piece.
      split_and!; [done| |done]. intros Hempty.
      rewrite Hempty in Heq. by subst study.
  - rewrite bool_decide_eq_true, elem_of_normalized_names. split.
    + intros (piece & Hin & Hne & Heq). split_and!; [done| |by exists piece].
      intros ->. by destruct (Py.strip piece).
    + intros (_ & Hne & piece & Hin & Heq). exists piece.
      split_and!; [done| |done]. intros Hempty.
      rewrite Hempty in Heq. by subst study.
Qed.

Lemma FAITH_STUDIES_nonempty study : study ∈ FAITH_STUDIES → study ≠ "".
Proof.
  unfold FAITH_STUDIES. rewrite !elem_of_cons, elem_of_nil.
  intros [->|[->|[->|[->|[->|[]]]]]]; discriminate.
Qed.

Lemma rstrip_empty s : Py.rstrip s = "" → all_space s = true.
Proof.
  induction s as [|c s IH]; [done|]. simpl.
  destruct (Py.rstrip s); [|done].
  destruct (Py.is_space c); [|done]. intros _. by apply IH.
Qed.

Lemma lstrip_all_space s : all_space (Py.lstrip s) = true → all_space s = true.
Proof.
  induction s as [|c s IH]; [done|]. simpl.
  destruct (Py.is_space c) eqn:Hc; [done|]. simpl. by rewrite Hc.
Qed.

Lemma all_space_comma_free s : all_space s = true → comma_free s = true.
Proof.
  induction s as [|c s IH]; [done|]. simpl.
  intros [Hc Hs]%andb_true_iff. rewrite (IH Hs), andb_true_r.
  by destruct c as [[] [] [] [] [] [] [] []].
Qed.

(** A blank text has no comma-separated name in it. *)
Lemma normalized_names_blank s :
  Py.strip s = "" → normalized_names (Text s) = [].
Proof.
  intros Hblank. unfold normalized_names. simpl.
  rewrite split_comma_free; [simpl; by rewrite Hblank|].
  by apply all_space_comma_free, lstrip_all_space, rstrip_empty.
Qed.

(** The names read from a joined list of pieces are the non-blank pieces,
    normalised. *)
Lemma normalized_names_join pieces :
  Forall (λ p, comma_free p = true) pieces →
  normalized_names (Text (join_comma pieces))
  = map (λ c, Py.lower (Py.strip c))
        (List.filter (λ c, Py.truthy (Py.strip c)) pieces).
Proof.
  intros Hfree. unfold normalized_names. simpl.
  destruct pieces as [|p pieces]; [done|].
  by rewrite split_join_comma.
Qed.

Lemma normalized_pieces_variation pieces pieces' :
  Forall2 same_up_to_case_and_space pieces pieces' →
  map (λ c, Py.lower (Py.strip c))
      (List.filter (λ c, Py.truthy (Py.strip c)) pieces)
  = map (λ c, Py.lower (Py.strip c))
        (List.filter (λ c, Py.truthy (Py.strip c)) pieces').
Proof.
  induction 1 as [|p p' pieces pieces' Hp _ IH]; [done|]. simpl.
  unfold same_up_to_case_and_space in Hp.
  rewrite <- (truthy_lower (Py.strip p)), <- (truthy_lower (Py.strip p')), Hp.
  destruct (Py.truthy _); simpl; by rewrite ?Hp, IH.
Qed.

End next_study.

(** C6.  [get_next_faith_study] returns the first study of the progression
    that does not occur in the completed-studies cell, where a study occurs
    when some comma-separated piece of the text equals it after stripping
    and lower-casing; it returns nothing exactly when all five occur; a
    missing or blank cell gives the first study; and two texts whose pieces
    differ only by letter case and surrounding whitespace give the same
    answer. *)
Theorem get_next_faith_study_first_missing (completed : cell) :
  (∀ study,
     get_next_faith_study completed = Some study ↔
     first_such (λ s, ¬ completed_has completed s) FAITH_STUDIES study)
  ∧ (get_next_faith_study completed = None ↔
     ∀ study, study ∈ FAITH_STUDIES → completed_has completed study)
  ∧ (isna completed = true ∨ Py.strip (str completed) = "" →
     get_next_faith_study completed = head FAITH_STUDIES)
  ∧ (∀ pieces pieces',
       completed = Text (join_comma pieces) →
       Forall (λ p, comma_free p = true) pieces →
       Forall (λ p, comma_free p = true) pieces' →
       Forall2 same_up_to_case_and_space pieces pieces' →
       get_next_faith_study (Text (join_comma pieces'))
       = get_next_faith_study completed).
Proof.
  assert (Hscan : get_next_faith_study completed
    = List.find (λ study, negb (bool_decide (study ∈ normalized_names completed)))
                FAITH_STUDIES).
  { by destruct completed. }
  assert (Hmiss : ∀ s, s ∈ FAITH_STUDIES →
    negb (bool_decide (s ∈ normalized_names completed)) = true
    ↔ ¬ completed_has completed s).
  { intros s Hs. rewrite negb_true_iff, bool_decide_eq_false.
    by rewrite normalized_names_completed by by apply FAITH_STUDIES_nonempty. }
  split_and!.
  - intros study. rewrite Hscan, find_first_such. split.
    + apply first_such_ext. intros s Hs. by apply Hmiss.
    + apply first_such_ext. intros s Hs. symmetry. by apply Hmiss.
  - rewrite Hscan, find_none_iff. split.
    + intros Hall study Hstudy. specialize (Hall study Hstudy).
      apply negb_false_iff, bool_decide_eq_true in Hall.
      by apply normalized_names_completed in Hall;
        [|apply FAITH_STUDIES_nonempty].
    + intros Hall study Hstudy. apply negb_false_iff, bool_decide_eq_true.
      apply normalized_names_completed; [by apply FAITH_STUDIES_nonempty|].
      by apply Hall.
  - intros [Hna|Hblank]; [by destruct completed|].
    destruct completed as [|s|z]; [done| |].
    + unfold get_next_faith_study. simpl in *.
      by rewrite normalized_names_blank.
    + rewrite Hscan. simpl in Hblank.
      assert (normalized_names (Int z) = []) as ->; [|done].
      unfold normalized_names.
      rewrite split_comma_free; [simpl; by rewrite Hblank|].
      by apply all_space_comma_free, lstrip_all_space, rstrip_empty.
  - intros pieces pieces' -> Hfree Hfree' Hvar.
    unfold get_next_faith_study. simpl.
    rewrite !normalized_names_join by done.
    by rewrite (normalized_pieces_variation pieces pieces').
Qed.

Lemma get_next_faith_study_first_missing_witness :
  get_next_faith_study (Text "DISCOVERY ,  Source")
  = get_next_faith_study (Text " discovery,source ")
  ∧ get_next_faith_study (Text " discovery,source ") = Some "growth"
  ∧ get_next_faith_study (Text "   ") = Some "discovery".
Proof.
  pose proof (get_next_faith_study_first_missing (Text " discovery,source "))
    as (Hfirst & _ & _ & Hvar).
  pose proof (get_next_faith_study_first_missing (Text "   "))
    as (_ & _ & Hblank & _).
  split_and!.
  - apply (Hvar [" discovery"; "source "] ["DISCOVERY "; "  Source"]).
    + reflexivity.
    + repeat constructor.
    + repeat constructor.
    + repeat constructor.
  - apply Hfirst. exists ["discovery"; "source"], ["trust"; "commission"].
    split_and!.
    + reflexivity.
    + intros (piece & Hin & Heq). vm_compute in Hin.
      repeat (apply elem_of_cons in Hin as [->|Hin]; [by vm_compute in Heq|]).
      by apply elem_of_nil in Hin.
    + intros y Hy Hnot. apply Hnot.
      repeat (apply elem_of_cons in Hy as [->|Hy]).
      * exists " discovery". split; [|reflexivity]. vm_compute. by left.
      * exists "source ". split; [|reflexivity]. vm_compute. right. by left.
      * by apply elem_of_nil in Hy.
  - apply Hblank. right. reflexivity.
Defined.

(** ** Substrings and weekday names *)

Section weekday.

Lemma app_cons c s t : String c s +:+ t = String c (s +:+ t).
Proof. done. Qed.

Lemma prefix_cons a needle b hay :
  String.prefix (String a needle) (String b hay)
  = bool_decide (a = b) && String.prefix needle hay.
Proof.
  simpl. destruct (ascii_dec a b) as [->|Hne].
  - by rewrite bool_decide_eq_true_2.
  - by rewrite bool_decide_eq_false_2.
Qed.

Lemma prefix_iff needle hay :
  String.prefix needle hay = true ↔ ∃ after, hay = needle +:+ after.
Proof.
  revert hay. induction needle as [|a needle IH]; intros hay.
  - split; [|by destruct hay]. intros _. by exists hay.
  - destruct hay as [|b hay].
    + split; [done|]. by intros [after ?].
    + rewrite prefix_cons, andb_true_iff, bool_decide_eq_true, IH.
      split.
      * intros [-> [after ->]]. by exists after.
      * intros [after Heq]. rewrite app_cons in Heq.
        injection Heq as -> ->. eauto.
Qed.

Lemma contains_cons needle c hay :
  Py.contains needle (String c hay)
  = String.prefix needle (String c hay) || Py.contains needle hay.
Proof. done. Qed.

Lemma contains_iff needle hay :
  Py.contains needle hay = true ↔
  ∃ before after, hay = before +:+ needle +:+ after.
Proof.
  induction hay as [|c hay IH].
  - unfold Py.contains. rewrite orb_false_r, prefix_iff. split.
    + intros [after ->]. by exists "", after.
    + intros (before & after & Heq). destruct before; [by exists after|done].
  - rewrite contains_cons, orb_true_iff, prefix_iff, IH. split.
    + intros [[after ->]|(before & after & ->)].
      * by exists "", after.
      * by exists (String c before), after.
    + intros (before & after & Heq). destruct before as [|b before].
      * left. by exists after.
      * right. rewrite app_cons in Heq. injection Heq as -> ->.
        by exists before, after.
Qed.

Lemma contains_lstrip needle hay :
  starts_solid needle = true →
  Py.contains needle (Py.lstrip hay) = Py.contains needle hay.
Proof.
  destruct needle as [|a needle]; [done|]. simpl starts_solid.
  intros Ha%negb_true_iff. induction hay as [|c hay IH]; [done|].
  simpl Py.lstrip. destruct (Py.is_space c) eqn:Hc; [|done].
  rewrite IH, contains_cons, prefix_cons.
  rewrite bool_decide_eq_false_2; [done|]. congruence.
Qed.

Lemma prefix_rstrip needle hay :
  ends_solid needle = true →
  String.prefix needle (Py.rstrip hay) = String.prefix needle hay.
Proof.
  revert hay. induction needle as [|a needle IH]; [done|].
  intros [|c hay] Hsolid; [done|].
  rewrite prefix_cons. simpl Py.rstrip.
  destruct needle as [|a' needle].
  - simpl in Hsolid. apply negb_true_iff in Hsolid.
    destruct (Py.rstrip hay) eqn:Hr.
    + destruct (Py.is_space c) eqn:Hc.
      * rewrite bool_decide_eq_false_2; [done|]. congruence.
      * rewrite prefix_cons. by destruct hay.
    + rewrite prefix_cons. by destruct hay.
  - rewrite <- (IH hay) by done.
    destruct (Py.rstrip hay) eqn:Hr.
    + destruct (Py.is_space c); [by rewrite andb_false_r|].
      by rewrite prefix_cons.
    + by rewrite prefix_cons.
Qed.

Lemma contains_rstrip needle hay :
  ends_solid needle = true →
  Py.contains needle (Py.rstrip hay) = Py.contains needle hay.
Proof.
  intros Hsolid. induction hay as [|c hay IH]; [done|].
  rewrite contains_cons, <- IH, <- (prefix_rstrip needle (String c hay)) by done.
  simpl Py.rstrip. destruct (Py.rstrip hay) eqn:Hr.
  - destruct (Py.is_space c); [by destruct needle|].
    rewrite contains_cons. by destruct needle.
  - by rewrite contains_cons.
Qed.

Lemma contains_strip needle hay :
  starts_solid needle = true → ends_solid needle = true →
  Py.contains needle (Py.strip hay) = Py.contains needle hay.
Proof.
  intros. unfold Py.strip. by rewrite contains_rstrip, contains_lstrip.
Qed.

Lemma DAY_NAMES_solid day :
  day ∈ DAY_NAMES → starts_solid day = true ∧ ends_solid day = true.
Proof.
  unfold DAY_NAMES. rewrite !elem_of_cons, elem_of_nil.
  intros [->|[->|[->|[->|[->|[->|[->|[]]]]]]]]; by vm_compute.
Qed.

Lemma contains_truthy needle hay :
  starts_solid needle = true → Py.contains needle hay = true →
  Py.truthy hay = true.
Proof. destruct needle, hay; done. Qed.

(** The test of the code is the textual property: the blank and missing
    checks and the stripping do not change which values pass. *)
Lemma names_a_day_iff value : names_a_day value = true ↔ names_weekday value.
Proof.
  unfold names_a_day, names_weekday. cbv zeta.
  rewrite lower_strip. split.
  - intros [[Hna _]%andb_true_iff Hday]%andb_true_iff.
    apply existsb_exists in Hday as (day & Hin%list_elem_of_In & Hday).
    destruct (DAY_NAMES_solid day Hin) as [Hs He].
    rewrite contains_strip in Hday by done.
    apply contains_iff in Hday as (before & after & Heq). eauto.
  - intros (day & before & after & Hin & Heq).
    destruct (DAY_NAMES_solid day Hin) as [Hs He].
    assert (Hday : Py.contains day (Py.strip (Py.lower (str value))) = true).
    { rewrite contains_strip by done. apply contains_iff. eauto. }
    rewrite !andb_true_iff. split_and!.
    + destruct value; [|done..]. exfalso. clear Hday.
      apply (f_equal (Py.contains day)) in Heq.
      rewrite (proj2 (contains_iff day (before +:+ day +:+ after))) in Heq
        by eauto.
      revert Hin Heq. unfold DAY_NAMES.
      rewrite !elem_of_cons, elem_of_nil.
      intros [->|[->|[->|[->|[->|[->|[->|[]]]]]]]]; by vm_compute.
    + rewrite <- truthy_lower, lower_strip. by eapply contains_truthy.
    + apply existsb_exists. exists day. split; [by apply list_elem_of_In|done].
Qed.

End weekday.

(** ** Common availability *)

Section common_slots.
Implicit Types (avail : gmap string cell) (slot : string).

Lemma elem_of_available_slots avail slot :
  slot ∈ available_slots avail ↔ free_on avail slot.
Proof.
  unfold available_slots, free_on. rewrite list_elem_of_fmap. split.
  - intros ([k v] & -> & Hin). apply list_elem_of_In, filter_In in Hin.
    destruct Hin as [Hin Hday]. apply list_elem_of_In in Hin.
    exists v. split; [by apply elem_of_map_to_list|].
    by apply names_a_day_iff.
  - intros (v & Hlook & Hday). exists (slot, v). split; [done|].
    apply list_elem_of_In, filter_In. split.
    + by apply list_elem_of_In, elem_of_map_to_list.
    + by apply names_a_day_iff.
Qed.

Lemma elem_of_set_intersection slot (first : gset string) rest :
  slot ∈ set_intersection first rest ↔
  slot ∈ first ∧ ∀ X, X ∈ rest → slot ∈ X.
Proof.
  unfold set_intersection. revert first.
  induction rest as [|Y rest IH]; intros first; simpl.
  - split; [|by intros [? _]]. intros ?. split; [done|].
    by intros X ?%elem_of_nil.
  - rewrite IH, elem_of_intersection. split.
    + intros [[? ?] Hrest]. split; [done|].
      by intros X [->|?]%elem_of_cons; [|apply Hrest].
    + intros [? Hrest]. split_and!; [done|apply Hrest; by left|].
      intros X ?. apply Hrest. by right.
Qed.

Lemma elem_of_sorted slot l : slot ∈ Py.sorted l ↔ slot ∈ l.
Proof. unfold Py.sorted. by rewrite merge_sort_Permutation. Qed.

Lemma find_common_slots_cons avail avail_dicts :
  find_common_slots (avail :: avail_dicts)
  = Py.sorted (elements (set_intersection
      (list_to_set (available_slots avail))
      (map (λ avail, list_to_set (available_slots avail)) avail_dicts))).
Proof. done. Qed.

Lemma elem_of_find_common_slots avail_dicts slot :
  avail_dicts ≠ [] →
  slot ∈ find_common_slots avail_dicts ↔
  ∀ avail, avail ∈ avail_dicts → free_on avail slot.
Proof.
  destruct avail_dicts as [|first rest]; [done|]. intros _.
  rewrite find_common_slots_cons, elem_of_sorted, elem_of_elements,
    elem_of_set_intersection, elem_of_list_to_set, elem_of_available_slots.
  split.
  - intros [Hfirst Hrest] avail [->|Hin]%elem_of_cons; [done|].
    apply elem_of_available_slots.
    apply (elem_of_list_to_set (C := gset string)).
    apply Hrest, list_elem_of_fmap. by exists avail.
  - intros Hall. split; [apply Hall; by left|].
    intros X (avail & -> & Hin)%list_elem_of_fmap.
    apply (elem_of_list_to_set (C := gset string)).
    apply elem_of_available_slots, Hall. by right.
Qed.

Lemma find_common_slots_NoDup avail_dicts :
  NoDup (find_common_slots avail_dicts).
Proof.
  destruct avail_dicts as [|first rest]; [constructor|].
  rewrite find_common_slots_cons. unfold Py.sorted.
  rewrite merge_sort_Permutation. apply NoDup_elements.
Qed.

Lemma find_common_slots_sorted avail_dicts :
  StronglySorted String.le (find_common_slots avail_dicts).
Proof.
  destruct avail_dicts as [|first rest]; [constructor|].
  rewrite find_common_slots_cons. apply StronglySorted_merge_sort; apply _.
Qed.

End common_slots.

(** C7.  On the empty list [find_common_slots] returns the empty list.  On a
    non-empty list of availability maps its elements are exactly the slots
    on which every map has a value that names a weekday (the intersection
    of the per-person sets), so each of them is one of every person's free
    slots; the list has no repetition and is in ascending order. *)
Theorem find_common_slots_intersection :
  find_common_slots [] = []
  ∧ ∀ avail_dicts : list (gmap string cell),
      avail_dicts ≠ [] →
      (∀ slot, slot ∈ find_common_slots avail_dicts ↔
               ∀ avail, avail ∈ avail_dicts → free_on avail slot)
      ∧ (∀ avail, avail ∈ avail_dicts →
           ∀ slot, slot ∈ find_common_slots avail_dicts →
                   slot ∈ dom avail ∧ free_on avail slot)
      ∧ NoDup (find_common_slots avail_dicts)
      ∧ StronglySorted String.le (find_common_slots avail_dicts).
Proof.
  split; [done|]. intros avail_dicts Hne. split_and!.
  - intros slot. by apply elem_of_find_common_slots.
  - intros avail Hin slot Hslot.
    pose proof (proj1 (elem_of_find_common_slots _ slot Hne) Hslot avail Hin)
      as Hfree.
    split; [|done]. destruct Hfree as (v & Hv & _).
    apply elem_of_dom. by exists v.
  - apply find_common_slots_NoDup.
  - apply find_common_slots_sorted.
Qed.

Lemma find_common_slots_intersection_witness :
  find_common_slots Sample.avail_dicts = ["Mon 9am"; "Tue 5pm"]
  ∧ NoDup (find_common_slots Sample.avail_dicts)
  ∧ StronglySorted String.le (find_common_slots Sample.avail_dicts).
Proof.
  split; [by vm_compute|].
  assert (Hne : Sample.avail_dicts ≠ []) by done.
  destruct find_common_slots_intersection as [_ Hspec].
  destruct (Hspec Sample.avail_dicts Hne) as (_ & _ & Hnodup & Hsorted).
  by split.
Defined.

(** ** Move validator *)

Section move.

(** The handler as a function of the payload: the decision, and the
    payload handed back as it was received. *)
Lemma validate_move_run data :
  validate_move data
  = (match find_person (people data) (person_id data),
           find_group (groups data) (from_group_id data),
           find_group (groups data) (to_group_id data) with
     | Some person, Some from_group, Some to_group =>
         check_move (people data) person from_group to_group
     | _, _, _ => Invalid REASON_NOT_FOUND
     end, data).
Proof.
  unfold validate_move, mbind, handler_bind, data_get, mret, handler_ret.
  destruct (find_person (people data) (person_id data)),
    (find_group (groups data) (from_group_id data)),
    (find_group (groups data) (to_group_id data)); reflexivity.
Qed.

Lemma find_person_first people pid person :
  find_person people pid = Some person ↔
  first_such (λ p, Person.id p = pid) people person.
Proof.
  unfold find_person. rewrite find_first_such. split;
    apply first_such_ext; intros p _; by rewrite bool_decide_eq_true.
Qed.

Lemma find_person_none people pid :
  find_person people pid = None ↔ ∀ p, p ∈ people → Person.id p ≠ pid.
Proof.
  unfold find_person. rewrite find_none_iff.
  by setoid_rewrite bool_decide_eq_false.
Qed.

Lemma find_group_first groups gid group :
  find_group groups gid = Some group ↔
  first_such (λ g, Group.id g = gid) groups group.
Proof.
  unfold find_group. rewrite find_first_such. split;
    apply first_such_ext; intros g _; by rewrite bool_decide_eq_true.
Qed.

Lemma find_group_none groups gid :
  find_group groups gid = None ↔ ∀ g, g ∈ groups → Group.id g ≠ gid.
Proof.
  unfold find_group. rewrite find_none_iff.
  by setoid_rewrite bool_decide_eq_false.
Qed.

Lemma find_group_stored_slots groups groups' gid :
  Forall2 same_but_stored_slots groups groups' →
  option_Forall2 same_but_stored_slots
    (find_group groups gid) (find_group groups' gid).
Proof.
  induction 1 as [|g g' groups groups' Hg _ IH]; [constructor|].
  unfold find_group in *. simpl.
  destruct Hg as (Hid & Hrest). rewrite <- Hid.
  destruct (bool_decide (Group.id g = gid)); [|done].
  constructor. by split.
Qed.

Lemma check_move_stored_slots people person from_group from_group'
    to_group to_group' :
  same_but_stored_slots from_group from_group' →
  same_but_stored_slots to_group to_group' →
  check_move people person from_group to_group
  = check_move people person from_group' to_group'.
Proof.
  intros (_ & _ & _ & _ & Hfrom & _) (_ & Hstudy & Hgender & _ & Hto & _).
  unfold check_move. by rewrite Hfrom, Hstudy, Hgender, Hto.
Qed.

End move.

(** ** The validator on the payload as received *)

Section payload.
Implicit Types (ps ms : list Person.t) (h : gmap nat (list Payload.person)).

Lemma next_person_complete ps pid :
  Payload.next_person (map payload_of_person ps) (Some pid)
  = Ok (payload_of_person <$> find_person ps pid).
Proof.
  induction ps as [|p ps IH]; [done|]. unfold find_person in *. simpl.
  destruct (decide (Person.id p = pid)) as [Heq|Hne].
  - rewrite !bool_decide_eq_true_2; [done|done|by rewrite Heq].
  - rewrite !bool_decide_eq_false_2; [done|done|congruence].
Qed.

Lemma next_group_complete (gs : list Group.t) gid :
  Payload.next_group (map payload_of_group gs) (Some gid)
  = Ok (payload_of_group <$> find_group gs gid).
Proof.
  induction gs as [|g gs IH]; [done|]. unfold find_group in *. simpl.
  destruct (decide (Group.id g = gid)) as [Heq|Hne].
  - rewrite !bool_decide_eq_true_2; [done|done|by rewrite Heq].
  - rewrite !bool_decide_eq_false_2; [done|done|congruence].
Qed.

Lemma listed_complete ps (g : Group.t) :
  Payload.listed (map payload_of_person ps) (payload_of_group g)
  = Ok (map payload_of_person
          (List.filter (λ p, bool_decide (Person.id p ∈ Group.members g)) ps)).
Proof.
  induction ps as [|p ps IH]; [done|]. simpl. rewrite IH. simpl.
  by destruct (bool_decide (Person.id p ∈ Group.members g)).
Qed.

Lemma avails_complete ms :
  Payload.avails (map payload_of_person ms) = Ok (map Person.avail ms).
Proof. induction ms as [|m ms IH]; [done|]. simpl. by rewrite IH. Qed.

Lemma mismatch_complete (person : Person.t) (g : Group.t) :
  Payload.mismatch (payload_of_person person) (payload_of_group g)
  = Ok (negb (bool_decide (Plain (Person.gender person)
                           = Py.lower_label (Group.gender g)))
        || negb (bool_decide (Plain <$> Person.next_study person
                              = Some (Py.lower_label (Group.faith_study g))))).
Proof.
  unfold Payload.mismatch. simpl.
  by destruct (bool_decide (Plain (Person.gender person)
                            = Py.lower_label (Group.gender g))).
Qed.

Lemma keeps_new_list h (listed_people : list Payload.person)
    (person : Payload.person) :
  keeps h (alter (λ stored, stored ++ [person]) (fresh (dom h))
                 (<[fresh (dom h) := listed_people]> h)).
Proof.
  intros l Hl. assert (l ≠ fresh (dom h)).
  { intros ->. by apply (is_fresh (dom h)), elem_of_dom. }
  by rewrite lookup_alter_ne, lookup_insert_ne.
Qed.

Lemma new_list_read h (listed_people : list Payload.person)
    (person : Payload.person) :
  alter (λ stored, stored ++ [person]) (fresh (dom h))
        (<[fresh (dom h) := listed_people]> h) !! fresh (dom h)
  = Some (listed_people ++ [person]).
Proof. by rewrite lookup_alter_eq, lookup_insert_eq. Qed.

(** The availability test leaves every list of the store as it was: what it
    appends to is the list it has just made. *)
Lemma check_availability_keeps (data : Payload.request)
    (person : Payload.person) (to_group : Payload.group) h :
  keeps h (snd (Payload.check_availability data person to_group h)).
Proof.
  unfold Payload.check_availability, mbind, Payload.M_bind, Payload.read,
    Payload.lift, Payload.alloc, Payload.append, mret, Payload.M_ret.
  destruct (Payload.listed _ to_group) as [listed_people|e]; [|done].
  cbn [fst snd]. rewrite new_list_read. cbn [default from_option id].
  destruct (Payload.avails _) as [avail_dicts|e]; [|apply keeps_new_list].
  destruct (find_common_slots avail_dicts); apply keeps_new_list.
Qed.

Lemma validate_move_keeps (data : Payload.request) h :
  keeps h (snd (Payload.validate_move data h)).
Proof.
  unfold Payload.validate_move, mbind, Payload.M_bind, Payload.read,
    Payload.lift, mret, Payload.M_ret.
  destruct (Payload.next_person _ _) as [[person|]|e]; [| |done];
    (destruct (Payload.next_group _ (Payload.from_group_id data))
       as [[from_group|]|e]; [| |done]);
    (destruct (Payload.next_group _ (Payload.to_group_id data))
       as [[to_group|]|e]; [| |done]); try done.
  destruct (Payload.mismatch person to_group) as [[|]|e]; [done| |done].
  destruct (Payload.item (Payload.g_members to_group) "members")
    as [to_members|e]; [|done].
  cbn [fst snd]. case_bool_decide; [done|].
  destruct (Payload.item (Payload.g_members from_group) "members")
    as [from_members|e]; [|done].
  cbn [fst snd]. case_bool_decide; [done|].
  apply check_availability_keeps.
Qed.

Lemma check_availability_complete data l h person (to_group : Group.t) :
  h !! l = Some (map payload_of_person (people data)) →
  fst (Payload.check_availability (payload_of_request data l)
         (payload_of_person person) (payload_of_group to_group) h)
  = Ok (match find_common_slots
                (map Person.avail
                   (List.filter
                      (λ p, bool_decide (Person.id p ∈ Group.members to_group))
                      (people data) ++ [person])) with
        | [] => Invalid REASON_NO_SLOT
        | slot :: slots => Valid (slot :: slots)
        end).
Proof.
  intros Hh.
  unfold Payload.check_availability, mbind, Payload.M_bind, Payload.read,
    Payload.lift, Payload.alloc, Payload.append, mret, Payload.M_ret.
  cbn [Payload.people payload_of_request]. rewrite Hh. cbn [default from_option id].
  rewrite listed_complete. cbn [fst snd]. rewrite new_list_read. cbn [default from_option id].
  change [payload_of_person person] with (map payload_of_person [person]).
  rewrite <- map_app, avails_complete.
  by destruct (find_common_slots _).
Qed.

(** On a payload whose objects carry every key, the handler does not raise
    and answers as [validate_move] does. *)
Lemma validate_move_complete data l h :
  h !! l = Some (map payload_of_person (people data)) →
  fst (Payload.validate_move (payload_of_request data l) h)
  = Ok (fst (validate_move data)).
Proof.
  intros Hh. rewrite validate_move_run. cbn [fst].
  unfold Payload.validate_move, mbind, Payload.M_bind, Payload.read,
    Payload.lift, mret, Payload.M_ret.
  cbn [Payload.people Payload.person_id Payload.from_group_id
       Payload.to_group_id Payload.groups payload_of_request].
  rewrite Hh. cbn [default from_option id].
  rewrite next_person_complete, !next_group_complete.
  destruct (find_person (people data) (person_id data)) as [person|];
    destruct (find_group (groups data) (from_group_id data)) as [from_group|];
    destruct (find_group (groups data) (to_group_id data)) as [to_group|];
    cbn [fmap option_fmap option_map fst]; try done.
  rewrite mismatch_complete. unfold check_move.
  destruct (negb _ || negb _); [done|].
  cbn [Payload.item Payload.g_members payload_of_group fst].
  case_bool_decide; [done|]. case_bool_decide; [done|].
  rewrite (check_availability_complete _ _ _ _ _ Hh). cbv zeta.
  by destruct (find_common_slots _).
Qed.

End payload.

Section decision.
Implicit Types (ps : list Person.t).

Lemma elem_of_joined_slots ps person to_group slot :
  slot ∈ find_common_slots
           (map Person.avail
              (List.filter
                 (λ p, bool_decide (Person.id p ∈ Group.members to_group)) ps
               ++ [person]))
  ↔ joined_free_on ps to_group person slot.
Proof.
  rewrite elem_of_find_common_slots
    by by intros [_ ?]%fmap_nil_inv%app_eq_nil.
  unfold joined_free_on, joined. split.
  - intros Hall q Hq. apply Hall, list_elem_of_fmap. exists q.
    split; [done|]. apply elem_of_app.
    destruct Hq as [->|[Hq Hid]]; [right; by left|left].
    apply list_elem_of_In, filter_In. split; [by apply list_elem_of_In|].
    by apply bool_decide_eq_true.
  - intros Hall avail Havail. apply list_elem_of_fmap in Havail.
    destruct Havail as (q & -> & Hq). apply Hall.
    apply elem_of_app in Hq. destruct Hq as [Hq|Hq].
    + apply list_elem_of_In, filter_In in Hq. destruct Hq as [Hq Hid].
      right. split; [by apply list_elem_of_In|].
      by apply bool_decide_eq_true in Hid.
    + apply list_elem_of_singleton in Hq. by left.
Qed.

(** The checks of [check_move], in their order, said without the code's
    own helpers. *)
Lemma check_move_order ps person from_group to_group :
  let differ :=
    Plain (Person.gender person) ≠ Py.lower_label (Group.gender to_group)
    ∨ Plain <$> Person.next_study person
      ≠ Some (Py.lower_label (Group.faith_study to_group)) in
  let full := 5 ≤ length (Group.members to_group) in
  let too_small := length (Group.members from_group) ≤ 2 in
  let response := check_move ps person from_group to_group in
  (differ → response = Invalid REASON_MISMATCH)
  ∧ (¬ differ → full → response = Invalid REASON_FULL)
  ∧ (¬ differ → ¬ full → too_small → response = Invalid REASON_TOO_SMALL)
  ∧ (¬ differ → ¬ full → ¬ too_small →
     (¬ ∃ slot, joined_free_on ps to_group person slot) →
     response = Invalid REASON_NO_SLOT)
  ∧ (¬ differ → ¬ full → ¬ too_small →
     (∃ slot, joined_free_on ps to_group person slot) →
     ∃ common_slots,
       response = Valid common_slots
       ∧ (∀ slot, slot ∈ common_slots ↔
                  joined_free_on ps to_group person slot)
       ∧ NoDup common_slots
       ∧ StronglySorted String.le common_slots).
Proof.
  cbv zeta. unfold check_move.
  destruct (decide (Plain (Person.gender person)
                    = Py.lower_label (Group.gender to_group))) as [Hg|Hg];
    [rewrite (bool_decide_eq_true_2 _ Hg)
    |rewrite (bool_decide_eq_false_2 _ Hg)];
  (destruct (decide (Plain <$> Person.next_study person
                     = Some (Py.lower_label (Group.faith_study to_group))))
     as [Hs|Hs];
    [rewrite (bool_decide_eq_true_2 _ Hs)
    |rewrite (bool_decide_eq_false_2 _ Hs)]);
  cbn [negb orb];
  try (split_and!; [done|intros Hno; destruct Hno; by auto..]).
  split_and!.
  - by intros [?|?].
  - intros _ Hfull. by rewrite (bool_decide_eq_true_2 _ Hfull).
  - intros _ Hfull Hsmall. rewrite (bool_decide_eq_false_2 _ Hfull).
    by rewrite (bool_decide_eq_true_2 _ Hsmall).
  - intros _ Hfull Hsmall Hnone.
    rewrite (bool_decide_eq_false_2 _ Hfull), (bool_decide_eq_false_2 _ Hsmall).
    destruct (find_common_slots _) as [|slot slots] eqn:Hcommon; [done|].
    destruct Hnone. exists slot. apply elem_of_joined_slots.
    rewrite Hcommon. by left.
  - intros _ Hfull Hsmall [slot Hslot%elem_of_joined_slots].
    rewrite (bool_decide_eq_false_2 _ Hfull), (bool_decide_eq_false_2 _ Hsmall).
    destruct (find_common_slots _) as [|s slots] eqn:Hcommon;
      [by apply elem_of_nil in Hslot|].
    exists (s :: slots). rewrite <- Hcommon. split_and!.
    + done.
    + intros slot'. apply elem_of_joined_slots.
    + apply find_common_slots_NoDup.
    + apply find_common_slots_sorted.
Qed.

End decision.




(** C8.  Two requests that differ at most in the slot lists stored in their
    groups get the same decision, with the same reason or the same
    recomputed slot list. *)
Theorem validate_move_ignores_stored_slots (data data' : MoveRequest) :
  differ_only_in_stored_slots data data' →
  fst (validate_move data) = fst (validate_move data').
Proof.
  intros (Hpid & Hfrom & Hto & Hpeople & Hgroups).
  rewrite !validate_move_run. cbn [fst].
  rewrite <- Hpid, <- Hfrom, <- Hto, <- Hpeople.
  pose proof (find_group_stored_slots _ _ (from_group_id data) Hgroups) as Hf.
  pose proof (find_group_stored_slots _ _ (to_group_id data) Hgroups) as Ht.
  destruct (find_person (people data) (person_id data)) as [person|].
  - destruct Hf as [from_group from_group' Hf|]; [|done].
    destruct Ht as [to_group to_group' Ht|]; [|done].
    by apply check_move_stored_slots.
  - by destruct Hf, Ht.
Qed.

Lemma validate_move_ignores_stored_slots_witness :
  fst (validate_move Sample.move_cat)
  = fst (validate_move Sample.move_cat_stale).
Proof.
  apply validate_move_ignores_stored_slots.
  split_and!; [reflexivity..|].
  repeat constructor.
Defined.

(** C9.  The validator checks neither that the person sits in the source
    group nor that the person is absent from the destination group: there
    is a request whose person is outside the source group, and inside the
    destination group already, that it accepts. *)
Theorem validate_move_ignores_membership :
  ∃ data person from_group to_group slots,
    find_person (people data) (person_id data) = Some person
    ∧ find_group (groups data) (from_group_id data) = Some from_group
    ∧ find_group (groups data) (to_group_id data) = Some to_group
    ∧ (Person.id person ∉ Group.members from_group)
    ∧ (Person.id person ∈ Group.members to_group)
    ∧ fst (validate_move data) = Valid slots.
Proof.
  exists Sample.move_dee, (Sample.person "dee"),
    (Sample.group "G1" ["ann"; "bea"; "cat"] [Sample.SLOT]),
    (Sample.group "G2" ["dee"; "eve"] [Sample.SLOT]), [Sample.SLOT].
  split_and!; [reflexivity..| | |by vm_compute].
  - simpl. intros Hin. list_cases Hin.
  - simpl. by left.
Qed.

(** ** Combinations *)

Section combinations.
Context {A : Type}.
Implicit Types (pool combo : list A) (r : nat).

Lemma combinations_elem pool r combo :
  combo ∈ combinations pool r → length combo = r ∧ combo `sublist_of` pool.
Proof.
  revert r combo. induction pool as [|x pool IH]; intros [|r] combo; simpl.
  - intros ->%list_elem_of_singleton. by split.
  - by intros ?%elem_of_nil.
  - intros ->%list_elem_of_singleton. split; [done|]. apply sublist_nil_l.
  - intros [Hin|Hin]%elem_of_app.
    + apply list_elem_of_fmap in Hin as (combo' & -> & Hin).
      apply IH in Hin as [<- Hsub]. split; [done|]. by constructor.
    + apply IH in Hin as [Hlen Hsub]. split; [done|]. by constructor.
Qed.

(** The first combination is the initial segment of the pool. *)
Lemma combinations_first pool r :
  r ≤ length pool → ∃ others, combinations pool r = take r pool :: others.
Proof.
  revert r. induction pool as [|x pool IH]; intros [|r] Hr; simpl in *.
  - by eexists.
  - lia.
  - by eexists.
  - destruct (IH r) as [others ->]; [lia|]. simpl. by eexists.
Qed.
End combinations.

(** ** Buckets *)

Section buckets.
Implicit Types (key : string * string) (p : Person.t)
  (members seen : list Person.t)
  (grouped : list ((string * string) * list Person.t)).

Lemma bucket_step_eligible grouped p :
  bucket_step grouped p
  = if eligible p
    then grouped_append (Person.gender p, default "" (Person.next_study p))
                        p grouped
    else grouped.
Proof.
  unfold bucket_step, eligible. by destruct (Person.next_study p).
Qed.

Lemma in_bucket_own p :
  eligible p = true →
  in_bucket (Person.gender p, default "" (Person.next_study p)) p = true.
Proof.
  intros Hp. unfold in_bucket. rewrite Hp. simpl.
  apply bool_decide_eq_true. split; [|done].
  unfold eligible in Hp. by destruct (Person.next_study p).
Qed.

Lemma in_bucket_key key p :
  in_bucket key p = true →
  key = (Person.gender p, default "" (Person.next_study p)).
Proof.
  unfold in_bucket. intros [_ [Hs Hg]%bool_decide_eq_true]%andb_true_iff.
  destruct key as [g s]. simpl in *. by rewrite Hs, Hg.
Qed.

Lemma in_bucket_eligible key p :
  in_bucket key p = true →
  eligible p = true ∧ Person.gender p = key.1
  ∧ Person.next_study p = Some key.2.
Proof.
  unfold in_bucket. by intros [? [? ?]%bool_decide_eq_true]%andb_true_iff.
Qed.

Lemma grouped_append_keys key p grouped :
  map fst (grouped_append key p grouped)
  = if bool_decide (key ∈ map fst grouped) then map fst grouped
    else map fst grouped ++ [key].
Proof.
  induction grouped as [|[k ms] grouped IH]; [done|]. simpl.
  destruct (decide (k = key)) as [->|Hne]; simpl.
  - rewrite bool_decide_eq_true_2; [done|]. by left.
  - rewrite IH. destruct (bool_decide (key ∈ map fst grouped)) eqn:Hin.
    + apply bool_decide_eq_true in Hin.
      rewrite bool_decide_eq_true_2; [done|]. by right.
    + apply bool_decide_eq_false in Hin.
      rewrite bool_decide_eq_false_2; [done|].
      intros [?|?]%elem_of_cons; congruence.
Qed.

Lemma grouped_append_elem key p grouped k ms :
  NoDup (map fst grouped) →
  (k, ms) ∈ grouped_append key p grouped ↔
  (k ≠ key ∧ (k, ms) ∈ grouped)
  ∨ (k = key ∧ ∃ ms', ms = ms' ++ [p]
                      ∧ ((key, ms') ∈ grouped
                         ∨ ((key ∉ map fst grouped) ∧ ms' = []))).
Proof.
  induction grouped as [|[k0 ms0] grouped IH]; intros Hnodup.
  - simpl. rewrite list_elem_of_singleton. split.
    + intros [= -> ->]. right. split; [done|]. exists []. split; [done|].
      right. split; [|done]. by intros ?%elem_of_nil.
    + intros [[_ ?%elem_of_nil]|[-> (ms' & -> & [?%elem_of_nil|[_ ->]])]];
        done.
  - apply NoDup_cons in Hnodup as [Hk0 Hnodup]. cbn [grouped_append].
    change (map fst ((k0, ms0) :: grouped)) with (k0 :: map fst grouped) in *.
    assert (Hfresh : ∀ ms', (k0, ms') ∉ grouped).
    { intros ms' Hin. apply Hk0, list_elem_of_fmap. by exists (k0, ms'). }
    destruct (decide (k0 = key)) as [->|Hne].
    + setoid_rewrite elem_of_cons. split.
      * intros [[= -> ->]|Hin].
        -- right. split; [done|]. exists ms0. split; [done|]. left. by left.
        -- left. split; [|by right]. intros ->. by apply (Hfresh ms).
      * intros [[Hk [Heq|Hin]]|[-> (ms' & -> & [[Heq|Hin]|[Hnot _]])]].
        -- by injection Heq.
        -- by right.
        -- injection Heq as ->. by left.
        -- by destruct (Hfresh ms').
        -- destruct Hnot. by left.
    + setoid_rewrite elem_of_cons. rewrite (IH Hnodup). split.
      * intros [[= -> ->]|[[? ?]|[-> (ms' & -> & [Hin|[Hnot ->]])]]].
        -- left. split; [done|]. by left.
        -- left. split; [done|]. by right.
        -- right. split; [done|]. exists ms'. split; [done|]. left. by right.
        -- right. split; [done|]. exists []. split; [done|]. right.
           split; [|done]. by intros [?|?].
      * intros [[Hk [Heq|Hin]]|[-> (ms' & -> & [[Heq|Hin]|[Hnot ->]])]].
        -- by left.
        -- right. left. by split.
        -- by injection Heq.
        -- right. right. split; [done|]. exists ms'. split; [done|]. by left.
        -- right. right. split; [done|]. exists []. split; [done|]. right.
           split; [|done]. intros Hin. apply Hnot. by right.
Qed.

Lemma filter_snoc {B} (f : B → bool) l x :
  List.filter f (l ++ [x])
  = List.filter f l ++ (if f x then [x] else []).
Proof.
  induction l as [|y l IH]; simpl; [by destruct (f x)|].
  rewrite IH. by destruct (f y).
Qed.

Lemma bucketed_step grouped seen p :
  bucketed grouped seen → bucketed (bucket_step grouped p) (seen ++ [p]).
Proof.
  intros [Hnodup Hspec]. rewrite bucket_step_eligible.
  destruct (eligible p) eqn:Hp.
  - set (own := (Person.gender p, default "" (Person.next_study p))).
    assert (Hown : in_bucket own p = true) by by apply in_bucket_own.
    assert (Hkeys : ∀ key, in_bucket key p = true → key = own)
      by (intros key; apply in_bucket_key).
    split.
    + rewrite grouped_append_keys. case_bool_decide; [done|].
      apply NoDup_app. split_and!; [done| |apply NoDup_singleton].
      by intros k Hk ->%list_elem_of_singleton.
    + intros key members. rewrite grouped_append_elem by done.
      rewrite filter_snoc. split.
      * intros [[Hne Hin]|[-> (ms' & -> & [Hin|[Hnot ->]])]].
        -- apply Hspec in Hin as [Hms ->].
           destruct (in_bucket key p) eqn:Hkey.
           ++ by apply Hkeys in Hkey.
           ++ by rewrite app_nil_r.
        -- apply Hspec in Hin as [Hms ->].
           rewrite Hown. split; [|done].
           by intros [? _]%app_eq_nil.
        -- rewrite Hown. split; [done|].
           destruct (List.filter (in_bucket own) seen) as [|m ms] eqn:Hf;
             [done|].
           destruct Hnot. apply list_elem_of_fmap.
           exists (own, m :: ms). split; [done|].
           apply Hspec. by rewrite Hf.
      * intros [Hne ->]. destruct (in_bucket key p) eqn:Hkey.
        -- apply Hkeys in Hkey as ->. right. split; [done|].
           eexists. split; [done|].
           destruct (List.filter (in_bucket own) seen) as [|m ms] eqn:Hf.
           ++ right. split; [|done].
              intros ([k ms] & Hk & Hin)%list_elem_of_fmap.
              simpl in Hk. subst k.
              apply Hspec in Hin as [Hms Heq]. congruence.
           ++ left. apply Hspec. by rewrite Hf.
        -- rewrite app_nil_r in *. left. split.
           ++ intros ->. congruence.
           ++ by apply Hspec.
  - split; [done|]. intros key members. rewrite filter_snoc.
    assert (in_bucket key p = false) as ->.
    { unfold in_bucket. by rewrite Hp. }
    rewrite app_nil_r. apply Hspec.
Qed.

Lemma bucketed_foldl grouped seen people :
  bucketed grouped seen →
  bucketed (foldl bucket_step grouped people) (seen ++ people).
Proof.
  revert grouped seen. induction people as [|p people IH];
    intros grouped seen Hb; simpl.
  - by rewrite app_nil_r.
  - rewrite cons_middle, (assoc_L (++) seen [p] people).
    by apply IH, bucketed_step.
Qed.

(** The buckets of a cohort: distinct keys, each with the eligible people
    of that key, in cohort order, and no empty bucket. *)
Lemma bucket_people_bucketed people :
  bucketed (bucket_people people) people.
Proof.
  apply (bucketed_foldl [] [] people). split; [constructor|].
  intros key members. split; [by intros ?%elem_of_nil|]. by intros [? ->].
Qed.

Lemma filter_sublist {B} (f : B → bool) l : List.filter f l `sublist_of` l.
Proof.
  induction l as [|x l IH]; simpl; [done|].
  destruct (f x); by constructor.
Qed.

Lemma bucket_people_members people key members :
  (key, members) ∈ bucket_people people →
  members `sublist_of` people
  ∧ ∀ m, m ∈ members →
         eligible m = true ∧ Person.gender m = key.1
         ∧ Person.next_study m = Some key.2.
Proof.
  intros [_ ->]%bucket_people_bucketed. split; [apply filter_sublist|].
  intros m [_ Hm]%list_elem_of_In%filter_In. by apply in_bucket_eligible.
Qed.
End buckets.

(** ** The size loop and the bucket loop *)

Section matcher.
Implicit Types (members combo : list Person.t) (results : list Group.t)
  (bucket : (string * string) * list Person.t).

Lemma first_valid_spec combos combo common :
  first_valid combos = Some (combo, common) ↔
  first_such (λ c, find_common_slots (map Person.avail c) ≠ []) combos combo
  ∧ common = find_common_slots (map Person.avail combo).
Proof.
  split.
  - induction combos as [|c combos IH]; [done|]. simpl.
    destruct (find_common_slots (map Person.avail c)) as [|s ss] eqn:Hc.
    + intros [(before & after & -> & Hx & Hbefore) ->]%IH. split; [|done].
      exists (c :: before), after. split_and!; [done|done|].
      intros y [->|Hy]%elem_of_cons; [|by apply Hbefore].
      rewrite Hc. intros Hne. by apply Hne.
    + intros [= <- <-]. split; [|done].
      exists [], combos. split_and!; [done|by rewrite Hc|].
      by intros y ?%elem_of_nil.
  - intros [(before & after & -> & Hx & Hbefore) ->].
    induction before as [|c before IH]; simpl.
    + by destruct (find_common_slots (map Person.avail combo)).
    + destruct (find_common_slots (map Person.avail c)) eqn:Hc.
      * apply IH. intros y Hy. apply Hbefore. by right.
      * destruct (Hbefore c); [by left|]. by rewrite Hc.
Qed.

Lemma first_valid_none combos :
  first_valid combos = None ↔
  ∀ c, c ∈ combos → find_common_slots (map Person.avail c) = [].
Proof.
  induction combos as [|c combos IH]; simpl.
  - split; [|done]. by intros _ c ?%elem_of_nil.
  - destruct (find_common_slots (map Person.avail c)) eqn:Hc.
    + rewrite IH. split.
      * by intros H y [->|?]%elem_of_cons; [|apply H].
      * intros H y ?. apply H. by right.
    + split; [done|]. intros H. specialize (H c). rewrite Hc in H.
      by discriminate H; left.
Qed.

(** The size loop over any list of sizes only appends to the results, and
    what it appends does not depend on them; the counter advances by the
    number of groups appended. *)
Lemma size_loop_appends gender study members sizes results counter :
  foldl (size_step gender study members) (results, counter) sizes
  = (results
     ++ fst (foldl (size_step gender study members) ([], counter) sizes),
     counter
     + length (fst (foldl (size_step gender study members) ([], counter)
                          sizes))).
Proof.
  revert results counter.
  induction sizes as [|size sizes IH]; intros results counter; simpl.
  - by rewrite app_nil_r, Nat.add_0_r.
  - destruct (first_valid (combinations members size)) as [[combo common]|].
    + rewrite IH.
      rewrite (IH [make_group counter gender study combo common]).
      simpl. rewrite <- (assoc_L (++)). simpl. f_equal. lia.
    + apply IH.
Qed.

Lemma match_bucket_appends results counter bucket :
  match_bucket (results, counter) bucket
  = (results ++ emitted counter bucket,
     counter + length (emitted counter bucket)).
Proof.
  destruct bucket as [[gender study] members]. unfold emitted, match_bucket.
  apply size_loop_appends.
Qed.

(** The groups of a bucket, size by size. *)
Lemma emitted_cons_size gender study members size sizes counter :
  fst (foldl (size_step gender study members) ([], counter) (size :: sizes))
  = match first_valid (combinations members size) with
    | Some (combo, common) =>
        make_group counter gender study combo common
        :: fst (foldl (size_step gender study members) ([], S counter) sizes)
    | None => fst (foldl (size_step gender study members) ([], counter) sizes)
    end.
Proof.
  simpl. destruct (first_valid (combinations members size))
    as [[combo common]|]; [|done].
  by rewrite size_loop_appends.
Qed.

(** Every group of a bucket is the first valid combination of some size. *)
Lemma size_loop_elem gender study members sizes counter g :
  g ∈ fst (foldl (size_step gender study members) ([], counter) sizes) →
  ∃ counter' size combo common,
    size ∈ sizes
    ∧ first_valid (combinations members size) = Some (combo, common)
    ∧ g = make_group counter' gender study combo common.
Proof.
  revert counter. induction sizes as [|size sizes IH]; intros counter.
  - by intros ?%elem_of_nil.
  - rewrite emitted_cons_size.
    destruct (first_valid (combinations members size))
      as [[combo common]|] eqn:Hfirst.
    + intros [->|Hin]%elem_of_cons.
      * exists counter, size, combo, common. split_and!; [by left|done..].
      * apply IH in Hin as (c' & sz & cb & cm & ? & ? & ?).
        exists c', sz, cb, cm. split_and!; [by right|done..].
    + intros Hin. apply IH in Hin as (c' & sz & cb & cm & ? & ? & ?).
      exists c', sz, cb, cm. split_and!; [by right|done..].
Qed.

(** The sizes of the groups of a bucket follow the order of the sizes
    tried, each at most once. *)
Lemma size_loop_sizes gender study members sizes counter :
  map (λ g, length (Group.members g))
      (fst (foldl (size_step gender study members) ([], counter) sizes))
  `sublist_of` sizes.
Proof.
  revert counter. induction sizes as [|size sizes IH]; intros counter.
  - done.
  - rewrite emitted_cons_size.
    destruct (first_valid (combinations members size))
      as [[combo common]|] eqn:Hfirst.
    + apply first_valid_spec in Hfirst as [Hfirst _].
      apply first_such_elem in Hfirst as [Hin _].
      apply combinations_elem in Hin as [Hlen _].
      simpl. rewrite length_map, Hlen. constructor. apply IH.
    + constructor. apply IH.
Qed.

(** The bucket loop: the results are the groups of the buckets, one bucket
    after the other. *)
Lemma bucket_loop_concat grouped results counter :
  ∃ per_bucket : list (list Group.t),
    fst (foldl match_bucket (results, counter) grouped)
    = results ++ concat per_bucket
    ∧ Forall2 (λ bucket new, ∃ c, new = emitted c bucket)
              grouped per_bucket.
Proof.
  revert results counter.
  induction grouped as [|bucket grouped IH]; intros results counter; simpl.
  - exists []. split; [by rewrite app_nil_r|constructor].
  - rewrite match_bucket_appends.
    destruct (IH (results ++ emitted counter bucket)
                 (counter + length (emitted counter bucket)))
      as (per_bucket & -> & Hall).
    exists (emitted counter bucket :: per_bucket). split.
    + simpl. by rewrite (assoc_L (++)).
    + constructor; [by exists counter|done].
Qed.

Lemma match_groups_concat grouped :
  ∃ per_bucket : list (list Group.t),
    match_groups grouped = concat per_bucket
    ∧ Forall2 (λ bucket new, ∃ c, new = emitted c bucket)
              grouped per_bucket.
Proof. apply (bucket_loop_concat grouped [] 1). Qed.

Lemma match_groups_elem grouped g :
  g ∈ match_groups grouped →
  ∃ gender study members counter size combo common,
    ((gender, study), members) ∈ grouped
    ∧ size ∈ SIZES
    ∧ first_valid (combinations members size) = Some (combo, common)
    ∧ g = make_group counter gender study combo common.
Proof.
  destruct (match_groups_concat grouped) as (per_bucket & -> & Hall).
  intros (new & Hnew & Hg)%list_elem_of_In%in_concat.
  apply list_elem_of_In in Hnew, Hg.
  apply list_elem_of_lookup in Hnew as [i Hi].
  destruct (Forall2_lookup_r _ _ _ _ _ Hall Hi)
    as ([[gender study] members] & Hbucket & c & ->).
  apply size_loop_elem in Hg as (c' & size & combo & common & ? & ? & ?).
  exists gender, study, members, c', size, combo, common.
  split_and!; [|done..]. apply list_elem_of_lookup. by exists i.
Qed.
End matcher.

(** ** The whole pass *)

Section pass.

Lemma process_csv_data_ok df groups people :
  process_csv_data df = Ok (groups, people) ↔
  read_people (availability_cols df) (rows df) [] = Ok people
  ∧ groups = match_groups (bucket_people people).
Proof.
  unfold process_csv_data, mbind, result_bind.
  destruct (read_people _ _ _) as [people'|e].
  - split; [by intros [= <- <-]|]. by intros [[= ->] ->].
  - split; [done|]. by intros [? _].
Qed.

Lemma choose_leader_spec study combo :
  match choose_leader study combo with
  | Some leader =>
      ∃ m, first_such (can_lead study) combo m ∧ leader = Person.id m
  | None => ∀ m, m ∈ combo → ¬ can_lead study m
  end.
Proof.
  unfold choose_leader.
  destruct (List.find _ combo) as [m|] eqn:Hfind; simpl.
  - exists m. split; [|done]. apply find_first_such in Hfind.
    revert Hfind. apply first_such_ext. intros y _. unfold can_lead.
    rewrite andb_true_iff, negb_true_iff, <- has_led_led_before.
    by rewrite not_true_iff_false.
  - intros m Hm [Hw Hl]. apply find_none_iff with (y := m) in Hfind; [|done].
    rewrite <- has_led_led_before, not_true_iff_false in Hl.
    by rewrite Hw, Hl in Hfind.
Qed.

Lemma SIZES_range size : size ∈ SIZES → 2 ≤ size ≤ 5.
Proof. intros Hin. unfold SIZES in Hin. list_cases Hin; lia. Qed.

End pass.

(** C2.  Every group of a matching pass is built from a combination of
    people of the cohort, all eligible and all of one gender and one next
    study, whose capitalised forms are the group's labels; its member list is
    the ids of the combination, of length 2 to 5; its slot list is the common
    slots of the combination, is not empty, and holds exactly the slots on
    which every member is free; its leader, when set, is the id of the first
    member of the combination who is willing to lead and has not led that
    study, hence the id of a member; and when no leader is set, no member
    qualifies.  Having led a study is read off the person's led-studies
    cell: the cell is not missing and one of its comma-separated pieces,
    stripped and lower-cased, is the study. *)
Theorem emitted_groups_valid df groups people g :
  process_csv_data df = Ok (groups, people) →
  g ∈ groups →
  ∃ gender study (combo : list Person.t),
    combo `sublist_of` people
    ∧ (∀ m, m ∈ combo →
            eligible m = true ∧ Person.gender m = gender
            ∧ Person.next_study m = Some study)
    ∧ Group.gender g = Py.capitalize gender
    ∧ Group.faith_study g = Py.capitalize study
    ∧ Group.members g = map Person.id combo
    ∧ 2 ≤ length (Group.members g) ≤ 5
    ∧ Group.common_availabilities g
      = find_common_slots (map Person.avail combo)
    ∧ Group.common_availabilities g ≠ []
    ∧ (∀ slot, slot ∈ Group.common_availabilities g ↔ all_free_on combo slot)
    ∧ match Group.leader g with
      | Some leader =>
          leader ∈ Group.members g
          ∧ ∃ m, first_such (can_lead study) combo m ∧ leader = Person.id m
      | None => ∀ m, m ∈ combo → ¬ can_lead study m
      end.
Proof.
  intros [_ ->]%process_csv_data_ok Hg.
  apply match_groups_elem in Hg
    as (gender & study & members & counter & size & combo & common
        & Hbucket & Hsize & Hfirst & ->).
  apply bucket_people_members in Hbucket as [Hsub Hmembers].
  apply first_valid_spec in Hfirst as [Hfirst ->].
  apply first_such_elem in Hfirst as [Hcombo Hcommon].
  apply combinations_elem in Hcombo as [Hlen Hcombo].
  apply SIZES_range in Hsize.
  exists gender, study, combo. simpl.
  split_and!; try done.
  - by trans members.
  - intros m Hm. apply Hmembers. by eapply elem_of_sublist.
  - rewrite length_map. lia.
  - rewrite length_map. lia.
  - intros slot. rewrite elem_of_find_common_slots.
    + unfold all_free_on. split.
      * intros Hall m Hm. apply Hall, list_elem_of_fmap. by exists m.
      * intros Hall avail (m & -> & Hm)%list_elem_of_fmap. by apply Hall.
    + destruct combo; [simpl in Hlen; lia|done].
  - pose proof (choose_leader_spec study combo) as Hleader.
    destruct (choose_leader study combo) as [leader|]; [|done].
    split; [|done]. destruct Hleader as (m & [Hm _]%first_such_elem & ->).
    apply list_elem_of_fmap. by exists m.
Qed.

Lemma emitted_groups_valid_witness :
  match process_csv_data Sample.three with
  | Ok (g :: _, _) =>
      2 ≤ length (Group.members g) ≤ 5
      ∧ Group.common_availabilities g ≠ []
  | _ => False
  end.
Proof.
  destruct (process_csv_data Sample.three) as [[[|g groups] people]|e]
    eqn:Hrun; [by vm_compute in Hrun| |by vm_compute in Hrun].
  destruct (emitted_groups_valid _ _ _ g Hrun)
    as (gender & study & combo & _ & _ & _ & _ & _ & Hsize & _ & Hslots & _);
    [by left|].
  by split.
Defined.

(** ** One bucket, size by size *)

Section bucket_sizes.
Implicit Types (members : list Person.t).

(** When everybody in the bucket is free on one slot, the first
    combination of each size is accepted: the first [size] members. *)
Lemma first_valid_shared members size slot :
  0 < size ≤ length members → all_free_on members slot →
  first_valid (combinations members size)
  = Some (take size members,
          find_common_slots (map Person.avail (take size members))).
Proof.
  intros [Hpos Hle] Hfree.
  destruct (combinations_first members size Hle) as [others ->].
  cbn [first_valid].
  assert (Hin : slot ∈ find_common_slots
                         (map Person.avail (take size members))).
  { apply elem_of_find_common_slots.
    - destruct members, size; simpl in *; (lia || done).
    - intros avail (m & -> & Hm)%list_elem_of_fmap.
      apply Hfree. by eapply elem_of_sublist, sublist_take. }
  destruct (find_common_slots _); [by apply elem_of_nil in Hin|done].
Qed.

Lemma size_loop_shared gender study members sizes counter slot :
  Forall (λ size, 0 < size ≤ length members) sizes →
  all_free_on members slot →
  map Group.members
      (fst (foldl (size_step gender study members) ([], counter) sizes))
  = map (λ size, map Person.id (take size members)) sizes.
Proof.
  intros Hsizes Hfree. revert counter.
  induction Hsizes as [|size sizes Hsize _ IH]; intros counter; [done|].
  rewrite emitted_cons_size, (first_valid_shared _ _ slot) by done.
  simpl. by rewrite IH.
Qed.

Lemma size_loop_labels gender study members sizes counter g :
  g ∈ fst (foldl (size_step gender study members) ([], counter) sizes) →
  Group.gender g = Py.capitalize gender
  ∧ Group.faith_study g = Py.capitalize study
  ∧ ∃ combo, combo `sublist_of` members
             ∧ Group.members g = map Person.id combo.
Proof.
  intros (c & size & combo & common & _ & Hfirst & ->)%size_loop_elem.
  split_and!; [done..|]. exists combo. split; [|done].
  apply first_valid_spec in Hfirst as [[Hin _]%first_such_elem _].
  by apply combinations_elem in Hin as [_ ?].
Qed.
End bucket_sizes.

Lemma emitted_bucket_yield counter bucket :
  bucket_yield bucket (emitted counter bucket).
Proof.
  destruct bucket as [[gender study] members].
  unfold bucket_yield, emitted, match_bucket. split_and!.
  - apply size_loop_sizes.
  - pose proof (size_loop_sizes gender study members SIZES counter) as Hsub.
    apply sublist_length in Hsub. by rewrite length_map in Hsub.
  - intros g. apply size_loop_labels.
  - intros Hfive [slot Hslot]. apply (size_loop_shared _ _ _ _ _ slot); [|done].
    unfold SIZES. repeat constructor; lia.
Qed.

(** C1 (as the code has it).  The groups of a pass are the groups of its
    buckets, bucket after bucket, where the buckets are the distinct
    (gender, next study) keys of the eligible people; a bucket gives at most
    one group for each of the sizes 5, 4, 3, 2, in that order, so at most
    four groups; and a bucket of five or more people who are all free on one
    slot gives exactly four groups: its first five, first four, first three
    and first two people. *)
Theorem one_group_per_bucket_and_size df groups people :
  process_csv_data df = Ok (groups, people) →
  bucketed (bucket_people people) people
  ∧ ∃ per_bucket : list (list Group.t),
      groups = concat per_bucket
      ∧ Forall2 bucket_yield (bucket_people people) per_bucket.
Proof.
  intros [_ ->]%process_csv_data_ok. split; [apply bucket_people_bucketed|].
  destruct (match_groups_concat (bucket_people people))
    as (per_bucket & -> & Hall).
  exists per_bucket. split; [done|].
  eapply Forall2_impl; [exact Hall|].
  intros bucket new [c ->]. apply emitted_bucket_yield.
Qed.

Lemma one_group_per_bucket_and_size_witness :
  match process_csv_data Sample.five with
  | Ok (groups, people) =>
      ∃ per_bucket : list (list Group.t),
        groups = concat per_bucket
        ∧ Forall2 bucket_yield (bucket_people people) per_bucket
  | Raise _ => False
  end.
Proof.
  destruct (process_csv_data Sample.five) as [[groups people]|e] eqn:Hrun;
    [|by vm_compute in Hrun].
  by destruct (one_group_per_bucket_and_size _ _ _ Hrun) as [_ Hyield].
Defined.

(** C1 as stated fails: a single bucket of five women who are all free on
    the one slot gives four groups, of sizes 5, 4, 3 and 2, not one. *)
Lemma one_group_per_bucket_counterexample :
  ∃ groups people,
    process_csv_data Sample.five = Ok (groups, people)
    ∧ bucket_people people = [(("female", "discovery"), people)]
    ∧ length people = 5
    ∧ all_free_on people Sample.SLOT
    ∧ map (λ g, length (Group.members g)) groups = [5; 4; 3; 2]
    ∧ ¬ length groups ≤ 1.
Proof.
  eexists _, _. split; [by vm_compute|].
  split_and!; [by vm_compute|done| |by vm_compute|simpl; lia].
  intros m Hm. exists (Text "Mondays").
  split; [list_cases Hm; by vm_compute|].
  apply names_a_day_iff. by vm_compute.
Qed.

(** C10.  Groups of one pass can share members: from three women who are
    all free on one slot the pass makes a group of the three and a group of
    the first two, and the first woman is in both. *)
Theorem groups_share_members :
  ∃ df groups people g1 g2 member,
    process_csv_data df = Ok (groups, people)
    ∧ groups !! 0 = Some g1 ∧ groups !! 1 = Some g2
    ∧ Group.id g1 ≠ Group.id g2
    ∧ member ∈ Group.members g1 ∧ member ∈ Group.members g2.
Proof.
  eexists Sample.three, _, _, _, _, "Ann_Doe_0".
  split; [by vm_compute|].
  split_and!; [done|done|by vm_compute|simpl; by left|simpl; by left].
Qed.

(** ** The row loop *)

Section rows.
Implicit Types (cols : list string) (row : gmap string cell)
  (rws : list (gmap string cell)) (people acc : list Person.t).

Lemma read_people_cons cols row rws acc :
  read_people cols (row :: rws) acc
  = match make_person cols row (length acc) with
    | Ok person => read_people cols rws (acc ++ [person])
    | Raise e => Raise e
    end.
Proof. done. Qed.

Lemma read_people_length cols rws acc people :
  read_people cols rws acc = Ok people →
  length people = length acc + length rws.
Proof.
  revert acc. induction rws as [|row rws IH]; intros acc.
  - intros [= ->]. simpl. lia.
  - rewrite read_people_cons.
    destruct (make_person cols row (length acc)) as [person|e]; [|done].
    intros ->%IH. rewrite length_app. simpl. lia.
Qed.

(** A gender cell that is not text makes the row raise. *)
Lemma make_person_gender_not_text cols row n v :
  row !! COL_GENDER = Some v → (∀ s, v ≠ Text s) →
  make_person cols row n = Raise (AttributeError v).
Proof.
  intros Hv Hnot.
  assert (Hget : row_get row COL_GENDER (Text "") = v).
  { unfold row_get. by rewrite Hv. }
  unfold make_person. rewrite Hget.
  destruct v as [|s|z]; [done| |done]. by destruct (Hnot s).
Qed.

(** One such row anywhere in the table makes the row loop raise. *)
Lemma read_people_gender_not_text cols rws acc row v :
  row ∈ rws → row !! COL_GENDER = Some v → (∀ s, v ≠ Text s) →
  ∃ e, read_people cols rws acc = Raise e.
Proof.
  intros Hin Hv Hnot. revert acc.
  induction rws as [|row' rws IH]; intros acc; [by apply elem_of_nil in Hin|].
  rewrite read_people_cons. apply elem_of_cons in Hin as [<-|Hin].
  - rewrite (make_person_gender_not_text _ _ _ v) by done. eauto.
  - destruct (make_person cols row' (length acc)); [by apply IH|eauto].
Qed.

Lemma avail_of_row_total row cols (d : gmap string cell) :
  (∀ col, col ∈ cols → is_Some (row !! col)) →
  ∃ avail, avail_of_row row cols d = Ok avail.
Proof.
  revert d. induction cols as [|col cols IH]; intros d Hall; simpl.
  - eauto.
  - destruct (Hall col) as [v Hv]; [by left|].
    unfold row_item. rewrite Hv. simpl. apply IH.
    intros c Hc. apply Hall. by right.
Qed.

(** A row whose gender cell is text (or whose table has no gender column)
    and that has a cell for every availability column gives a person. *)
Lemma make_person_total cols row n :
  (∃ s, row_get row COL_GENDER (Text "") = Text s) →
  (∀ col, col ∈ cols → is_Some (row !! col)) →
  ∃ person, make_person cols row n = Ok person.
Proof.
  intros [s Hs] Hall. unfold make_person. rewrite Hs. simpl.
  destruct (avail_of_row_total row cols ∅ Hall) as [avail ->]. simpl. eauto.
Qed.

Lemma read_people_total cols rws acc :
  (∀ row, row ∈ rws →
          (∃ s, row_get row COL_GENDER (Text "") = Text s)
          ∧ ∀ col, col ∈ cols → is_Some (row !! col)) →
  ∃ people, read_people cols rws acc = Ok people.
Proof.
  revert acc. induction rws as [|row rws IH]; intros acc Hall.
  - simpl. eauto.
  - rewrite read_people_cons.
    destruct (Hall row) as [Hg Hc]; [by left|].
    destruct (make_person_total cols row (length acc) Hg Hc) as [p ->].
    apply IH. intros r Hr. apply Hall. by right.
Qed.

Lemma availability_cols_columns df col :
  col ∈ availability_cols df → col ∈ columns df.
Proof.
  unfold availability_cols. destruct (get_loc COL_LED (columns df)).
  - intros Hin. eapply elem_of_sublist; [exact Hin|apply sublist_drop].
  - intros [Hin _]%list_elem_of_In%filter_In. by apply list_elem_of_In.
Qed.

(** The part of the never-aborts promise that the code keeps: on a table
    whose rows have a cell for every column and text in every gender cell,
    the pass returns, with one person per row. *)
Lemma process_csv_data_total df :
  (∀ row, row ∈ rows df →
          (∃ s, row_get row COL_GENDER (Text "") = Text s)
          ∧ ∀ col, col ∈ columns df → is_Some (row !! col)) →
  ∃ groups people,
    process_csv_data df = Ok (groups, people)
    ∧ length people = length (rows df).
Proof.
  intros Hall.
  destruct (read_people_total (availability_cols df) (rows df) []) as [ps Hps].
  { intros row Hrow. destruct (Hall row Hrow) as [Hg Hc]. split; [done|].
    intros col Hcol. by apply Hc, availability_cols_columns. }
  exists (match_groups (bucket_people ps)), ps. split.
  - by apply process_csv_data_ok.
  - by apply read_people_length in Hps.
Qed.

(** A blank gender cell anywhere aborts the whole pass. *)
Lemma process_csv_data_gender_not_text df row v :
  row ∈ rows df → row !! COL_GENDER = Some v → (∀ s, v ≠ Text s) →
  ∃ e, process_csv_data df = Raise e.
Proof.
  intros Hin Hv Hnot.
  destruct (read_people_gender_not_text (availability_cols df) (rows df) []
              row v Hin Hv Hnot) as [e He].
  exists e. unfold process_csv_data. by rewrite He.
Qed.

Lemma bucket_people_none_eligible people :
  List.filter eligible people = [] → bucket_people people = [].
Proof.
  intros Hnone.
  destruct (bucket_people people) as [|[key members] grouped] eqn:Hb; [done|].
  assert (Hin : (key, members) ∈ bucket_people people) by (rewrite Hb; by left).
  apply bucket_people_bucketed in Hin as [Hne ->]. destruct Hne.
  clear Hb. induction people as [|p people IH]; [done|]. simpl in *.
  unfold in_bucket at 1. destruct (eligible p); [done|]. simpl. by apply IH.
Qed.

Lemma missing_columns_none df :
  List.filter (λ col, negb (bool_decide (col ∈ columns df))) REQUIRED_COLUMNS
  = [] ↔ ∀ col, col ∈ REQUIRED_COLUMNS → col ∈ columns df.
Proof.
  split.
  - intros Hnone col Hcol. destruct (decide (col ∈ columns df)); [done|].
    assert (Hin : In col (List.filter
      (λ col, negb (bool_decide (col ∈ columns df))) REQUIRED_COLUMNS)).
    { apply filter_In. split; [by apply list_elem_of_In|].
      by rewrite bool_decide_eq_false_2. }
    by rewrite Hnone in Hin.
  - intros Hall.
    destruct (List.filter _ REQUIRED_COLUMNS) as [|col l] eqn:Hf; [done|].
    assert (Hin : In col (col :: l)) by by left.
    rewrite <- Hf in Hin. apply filter_In in Hin as [Hin Hmiss].
    apply list_elem_of_In, Hall in Hin.
    by rewrite bool_decide_eq_true_2 in Hmiss.
Qed.
End rows.

(** C4.  A blank gender cell aborts the batch: the table has every required
    column and two rows, the second with its gender cell left blank; the
    pass raises on that cell, no person record is returned, not even for
    the first row, and the upload answers with a processing error. *)
Theorem blank_gender_aborts_batch :
  (∀ col, col ∈ REQUIRED_COLUMNS → col ∈ columns Sample.blank_gender)
  ∧ (∀ row, row ∈ rows Sample.blank_gender →
            ∀ col, col ∈ columns Sample.blank_gender → is_Some (row !! col))
  ∧ process_csv_data Sample.blank_gender = Raise (AttributeError NaN)
  ∧ upload_file Sample.blank_gender
    = UploadError 500 (ProcessingError (AttributeError NaN)).
Proof.
  split_and!; [| |by vm_compute..].
  - intros col Hcol. apply missing_columns_none; [by vm_compute|done].
  - intros row Hrow col Hcol. unfold Sample.blank_gender in *. simpl in *.
    unfold Sample.COLUMNS in Hcol.
    list_cases Hrow; list_cases Hcol; vm_compute; eauto.
Qed.

(** C5 as stated fails: the table has one row whose gender is blank text, so
    nobody is eligible, and the upload succeeds with no group. *)
Lemma no_eligible_people_counterexample :
  ∃ people,
    process_csv_data Sample.nobody_eligible = Ok ([], people)
    ∧ List.filter eligible people = []
    ∧ upload_file Sample.nobody_eligible = UploadSuccess [] people 1 0.
Proof. eexists. split_and!; by vm_compute. Qed.

(** C5 (as the code has it).  The upload answers "no valid people" exactly
    when every required column is there and the table has no row.  With at
    least one row and a pass that returns, it succeeds with the groups and
    people of the pass, and when none of the people is eligible the group
    list is empty: the same kind of answer as a pass that forms no group from
    eligible people. *)
Theorem upload_file_no_people df :
  (upload_file df = UploadError 400 NoValidPeople ↔
   (∀ col, col ∈ REQUIRED_COLUMNS → col ∈ columns df) ∧ rows df = [])
  ∧ ∀ groups people,
      (∀ col, col ∈ REQUIRED_COLUMNS → col ∈ columns df) →
      process_csv_data df = Ok (groups, people) →
      rows df ≠ [] →
      upload_file df
      = UploadSuccess groups people (length people) (length groups)
      ∧ (List.filter eligible people = [] → groups = []).
Proof.
  split.
  - unfold upload_file. split.
    + destruct (List.filter _ REQUIRED_COLUMNS) as [|c l] eqn:Hmissing; [|done].
      pose proof (proj1 (missing_columns_none df) Hmissing) as Hcols.
      destruct (process_csv_data df) as [[groups people]|e] eqn:Hrun; [|done].
      destruct people as [|p people]; [|done]. intros _. split; [done|].
      apply process_csv_data_ok in Hrun as [Hlen%read_people_length _].
      destruct (rows df); [done|]. simpl in Hlen. lia.
    + intros [Hcols%missing_columns_none Hrows]. rewrite Hcols.
      unfold process_csv_data. by rewrite Hrows.
  - intros groups people Hcols%missing_columns_none Hrun Hrows.
    unfold upload_file. rewrite Hcols, Hrun.
    apply process_csv_data_ok in Hrun as [Hpeople ->].
    apply read_people_length in Hpeople. split.
    + destruct people as [|p people]; [|done].
      destruct (rows df); [done|]. simpl in Hpeople. lia.
    + intros Hnone. by rewrite bucket_people_none_eligible.
Qed.

Lemma upload_file_no_people_witness :
  match process_csv_data Sample.nobody_eligible with
  | Ok (groups, people) =>
      upload_file Sample.nobody_eligible
      = UploadSuccess groups people (length people) (length groups)
      ∧ groups = []
  | Raise _ => False
  end
  ∧ upload_file Sample.no_rows = UploadError 400 NoValidPeople.
Proof.
  split.
  - destruct (process_csv_data Sample.nobody_eligible) as [[groups people]|e]
      eqn:Hrun; [|by vm_compute in Hrun].
    destruct (upload_file_no_people Sample.nobody_eligible) as [_ Hsome].
    destruct (Hsome groups people) as [Hup Hnone].
    + apply missing_columns_none. by vm_compute.
    + exact Hrun.
    + discriminate.
    + split; [exact Hup|]. apply Hnone.
      vm_compute in Hrun. injection Hrun as _ <-. by vm_compute.
  - apply (upload_file_no_people Sample.no_rows). split; [|done].
    apply missing_columns_none. by vm_compute.
Defined.

(** * Further properties *)

(** ** Stripping and case, once more *)

Section normal_forms.

Lemma lower_char_idem c : Py.lower_char (Py.lower_char c) = Py.lower_char c.
Proof. by destruct c as [[] [] [] [] [] [] [] []]. Qed.

Lemma lower_idem s : Py.lower (Py.lower s) = Py.lower s.
Proof.
  induction s as [|c s IH]; [done|]. simpl. by rewrite lower_char_idem, IH.
Qed.

(** Lower-casing the title-case form of a lower-case character gives it
    back, the sharp s and the micro sign apart. *)
Lemma lower_title_char c rest :
  Py.lower_char c = c → N_of_ascii c ≠ 223%N → N_of_ascii c ≠ 181%N →
  Py.lower_label (label_app (Py.title_char c) rest)
  = Plain (String c (Py.lower rest)).
Proof.
  intros Hlow Hsharp Hmicro.
  destruct c as [[] [] [] [] [] [] [] []];
    try (vm_compute in Hlow; discriminate Hlow);
    try (exfalso; apply Hsharp; reflexivity);
    try (exfalso; apply Hmicro; reflexivity);
    reflexivity.
Qed.

(** Lower-casing the capitalised form of a lower-case text gives it back,
    unless the text starts with the sharp s or the micro sign. *)
Lemma lower_label_capitalize s :
  Py.lower s = s → ¬ starts_sharp_s_or_micro s →
  Py.lower_label (Py.capitalize s) = Plain s.
Proof.
  destruct s as [|c s']; [done|]. simpl. intros [= Hc Hs] Hno.
  rewrite lower_title_char.
  - by rewrite lower_idem, Hs.
  - done.
  - intros Hsharp. apply Hno. exists c, s'. split; [done|by left].
  - intros Hmicro. apply Hno. exists c, s'. split; [done|by right].
Qed.

(** A text that starts with the sharp s or the micro sign does not come
    back: the first gives a label that starts with two letters s, the
    second one that starts with the code point 956. *)
Lemma lower_label_capitalize_sharp s :
  starts_sharp_s_or_micro s → Py.lower_label (Py.capitalize s) ≠ Plain s.
Proof.
  intros (c & rest & -> & Hc) Heq.
  assert (Hcases : c = ascii_of_N 223 ∨ c = ascii_of_N 181).
  { rewrite <- (ascii_N_embedding c). destruct Hc as [-> | ->]; auto. }
  apply (f_equal (λ l, match l with
                       | Plain (String a _) => N_of_ascii a
                       | _ => 0%N
                       end)) in Heq.
  destruct Hcases as [-> | ->]; vm_compute in Heq; discriminate Heq.
Qed.

Lemma rstrip_idem s : Py.rstrip (Py.rstrip s) = Py.rstrip s.
Proof.
  induction s as [|c s IH]; [done|]. simpl.
  destruct (Py.rstrip s) as [|d r] eqn:Hr.
  - destruct (Py.is_space c) eqn:Hc; [done|]. simpl. by rewrite Hc.
  - change (Py.rstrip (String c (String d r)))
      with (match Py.rstrip (String d r) with
            | "" => if Py.is_space c then "" else String c ""
            | r' => String c r'
            end).
    by rewrite IH.
Qed.

Lemma lstrip_starts_solid s :
  Py.lstrip s = "" ∨ starts_solid (Py.lstrip s) = true.
Proof.
  induction s as [|c s IH]; [by left|]. simpl.
  destruct (Py.is_space c) eqn:Hc; [done|]. right. simpl. by rewrite Hc.
Qed.

Lemma lstrip_solid s : starts_solid s = true → Py.lstrip s = s.
Proof.
  destruct s as [|c s]; [done|]. simpl. by intros ->%negb_true_iff.
Qed.

Lemma rstrip_starts_solid s :
  starts_solid s = true → starts_solid (Py.rstrip s) = true.
Proof.
  destruct s as [|c s]; [done|]. simpl. intros Hc.
  destruct (Py.rstrip s); [|done].
  apply negb_true_iff in Hc. rewrite Hc. simpl. by rewrite Hc.
Qed.

Lemma strip_idem s : Py.strip (Py.strip s) = Py.strip s.
Proof.
  unfold Py.strip.
  destruct (lstrip_starts_solid s) as [->|Hsolid]; [done|].
  by rewrite (lstrip_solid _ (rstrip_starts_solid _ Hsolid)), rstrip_idem.
Qed.

(** A stripped and lower-cased text is its own normal form. *)
Lemma normal_form_fixed s :
  Py.lower (Py.lower (Py.strip s)) = Py.lower (Py.strip s)
  ∧ Py.strip (Py.lower (Py.strip s)) = Py.lower (Py.strip s).
Proof.
  split; [apply lower_idem|]. by rewrite <- lower_strip, strip_idem.
Qed.

End normal_forms.

(** X1.  [has_led] answers yes exactly when the cell is not missing and one
    of the comma-separated pieces of its text is the study once stripped
    and lower-cased.  A missing or blank cell gives no.  The study itself is
    taken as it is: a study that is empty, or not already lower-case and
    stripped, is never reported as led.  Changing the case of the pieces or
    the whitespace around them does not change the answer. *)
Theorem has_led_pieces (study : string) (led_str : cell) :
  (has_led study led_str = true ↔
   isna led_str = false ∧ study ≠ "" ∧ completed_has led_str study)
  ∧ (isna led_str = true ∨ Py.strip (str led_str) = "" →
     has_led study led_str = false)
  ∧ (has_led study led_str = true →
     Py.lower study = study ∧ Py.strip study = study)
  ∧ (∀ pieces pieces',
       led_str = Text (join_comma pieces) →
       Forall (λ p, comma_free p = true) pieces →
       Forall (λ p, comma_free p = true) pieces' →
       Forall2 same_up_to_case_and_space pieces pieces' →
       has_led study (Text (join_comma pieces')) = has_led study led_str).
Proof.
  assert (Hiff : has_led study led_str = true ↔
    isna led_str = false ∧ study ≠ "" ∧ completed_has led_str study).
  { unfold has_led. destruct (isna led_str) eqn:Hna.
    - split; [done|]. by intros [? _].
    - rewrite bool_decide_eq_true, elem_of_normalized_names. split.
      + intros (piece & Hin & Hne & Heq). split_and!; [done| |by exists piece].
        intros ->. by destruct (Py.strip piece).
      + intros (_ & Hne & piece & Hin & Heq). exists piece.
        split_and!; [done| |done]. intros Hempty.
        rewrite Hempty in Heq. by subst study. }
  split_and!; [done| | |].
  - intros [Hna|Hblank]; [unfold has_led; by rewrite Hna|].
    destruct (has_led study led_str) eqn:Hled; [|done].
    destruct (proj1 Hiff eq_refl) as (Hna & Hne & piece & Hin & Heq).
    assert (Hfree : comma_free (str led_str) = true)
      by by apply all_space_comma_free, lstrip_all_space, rstrip_empty.
    rewrite (split_comma_free _ Hfree) in Hin.
    apply list_elem_of_singleton in Hin as ->.
    rewrite Hblank in Heq. by subst study.
  - intros (_ & _ & piece & _ & <-)%Hiff. apply normal_form_fixed.
  - intros pieces pieces' -> Hfree Hfree' Hvar. unfold has_led. simpl.
    rewrite !normalized_names_join by done.
    by rewrite (normalized_pieces_variation pieces pieces').
Qed.

Lemma has_led_pieces_witness :
  has_led "trust" (Text " Discovery, TRUST ") = true
  ∧ has_led "trust" (Text "discovery ,trust")
    = has_led "trust" (Text " Discovery, TRUST ").
Proof.
  pose proof (has_led_pieces "trust" (Text " Discovery, TRUST "))
    as (Hiff & _ & _ & Hvar).
  split.
  - apply Hiff. split_and!; [done|done|].
    exists " TRUST ". split; [|reflexivity]. vm_compute. right. by left.
  - apply (Hvar [" Discovery"; " TRUST "] ["discovery "; "trust"]).
    + reflexivity.
    + repeat constructor.
    + repeat constructor.
    + repeat constructor.
Defined.

(** ** The common slots as a function of the set of maps *)

Lemma find_common_slots_antitone (avail_dicts avail_dicts' : list (gmap string cell)) slot :
  avail_dicts ≠ [] →
  (∀ avail, avail ∈ avail_dicts → avail ∈ avail_dicts') →
  slot ∈ find_common_slots avail_dicts' → slot ∈ find_common_slots avail_dicts.
Proof.
  intros Hne Hsub.
  assert (Hne' : avail_dicts' ≠ []).
  { destruct avail_dicts as [|a l]; [done|]. intros Heq.
    specialize (Hsub a). rewrite Heq in Hsub.
    by apply elem_of_nil in Hsub; [|left]. }
  rewrite !elem_of_find_common_slots by done.
  intros Hall avail Hin. by apply Hall, Hsub.
Qed.

(** Two duplicate-free ascending lists with the same elements are equal. *)
Lemma sorted_slots_unique (l l' : list string) :
  StronglySorted String.le l → StronglySorted String.le l' →
  NoDup l → NoDup l' → (∀ slot, slot ∈ l ↔ slot ∈ l') → l = l'.
Proof.
  intros Hs Hs' Hn Hn' Hsame.
  apply (StronglySorted_unique String.le); [done..|].
  by apply NoDup_Permutation.
Qed.

(** X2.  The common slots depend only on which availability maps are in the
    list, not on their order or on repetitions.  A list that holds every map
    of another list has no more common slots than that other, provided the
    other is not empty; the empty list is the exception, for it has no
    common slot at all, whatever the maps of the longer list. *)
Theorem find_common_slots_set (avail_dicts avail_dicts' : list (gmap string cell)) :
  (∀ avail, avail ∈ avail_dicts → avail ∈ avail_dicts') →
  ((∀ avail, avail ∈ avail_dicts' → avail ∈ avail_dicts) →
   find_common_slots avail_dicts' = find_common_slots avail_dicts)
  ∧ (avail_dicts ≠ [] →
     ∀ slot, slot ∈ find_common_slots avail_dicts' →
             slot ∈ find_common_slots avail_dicts)
  ∧ (avail_dicts = [] → find_common_slots avail_dicts = []).
Proof.
  intros Hsub. split_and!.
  - intros Hsup. destruct avail_dicts as [|a l].
    + destruct avail_dicts' as [|a' l']; [done|].
      specialize (Hsup a'). by apply elem_of_nil in Hsup; [|left].
    + assert (Hne' : avail_dicts' ≠ []).
      { intros Heq. specialize (Hsub a). rewrite Heq in Hsub.
        by apply elem_of_nil in Hsub; [|left]. }
      apply sorted_slots_unique;
        auto using find_common_slots_sorted, find_common_slots_NoDup.
      intros slot. split; by apply find_common_slots_antitone.
  - intros Hne slot. by apply find_common_slots_antitone.
  - by intros ->.
Qed.

Lemma find_common_slots_set_witness :
  find_common_slots (rev Sample.avail_dicts ++ Sample.avail_dicts)
  = find_common_slots Sample.avail_dicts
  ∧ find_common_slots (Sample.avail_dicts ++ [∅])
    ⊆ find_common_slots Sample.avail_dicts.
Proof.
  split.
  - apply (find_common_slots_set Sample.avail_dicts
             (rev Sample.avail_dicts ++ Sample.avail_dicts)).
    + intros avail Hin. apply elem_of_app. by right.
    + intros avail [Hin|Hin]%elem_of_app; [|done].
      by apply elem_of_reverse in Hin.
  - intros slot.
    apply (find_common_slots_set Sample.avail_dicts
             (Sample.avail_dicts ++ [∅])).
    + intros avail Hin. apply elem_of_app. by left.
    + done.
Defined.

(** Membership in a list given by its elements. *)
Ltac list_mem := repeat first [by left | right].

(** ** Combinations, completely *)

Section combinations_complete.
Context {A : Type}.
Implicit Types (pool combo : list A) (r : nat).

Lemma sublist_combinations pool combo :
  combo `sublist_of` pool → combo ∈ combinations pool (length combo).
Proof.
  induction 1 as [|x combo pool _ IH|x combo pool _ IH]; simpl.
  - by left.
  - apply elem_of_app. left. apply list_elem_of_fmap. by exists combo.
  - destruct combo as [|y combo]; [by left|].
    apply elem_of_app. by right.
Qed.

Lemma combinations_iff pool r combo :
  combo ∈ combinations pool r ↔ length combo = r ∧ combo `sublist_of` pool.
Proof.
  split; [apply combinations_elem|].
  intros [<- Hsub]. by apply sublist_combinations.
Qed.

Lemma combinations_NoDup pool r : NoDup pool → NoDup (combinations pool r).
Proof.
  intros Hpool. revert r.
  induction Hpool as [|x pool Hx _ IH]; intros [|r]; simpl.
  - apply NoDup_singleton.
  - constructor.
  - apply NoDup_singleton.
  - apply NoDup_app. split_and!.
    + apply (NoDup_fmap_2 (cons x)), IH.
    + intros combo (combo' & -> & _)%list_elem_of_fmap
        [_ Hsub]%combinations_elem.
      apply Hx. eapply elem_of_sublist; [|exact Hsub]. by left.
    + apply IH.
Qed.
End combinations_complete.

(** X3.  The combinations of size [r] are exactly the subsequences of [r]
    elements of the pool, so they keep the order of the pool; and over a pool
    without repetition no combination comes twice. *)
Theorem combinations_subsequences {A : Type} (pool : list A) (r : nat) :
  (∀ combo, combo ∈ combinations pool r ↔
            length combo = r ∧ combo `sublist_of` pool)
  ∧ (NoDup pool → NoDup (combinations pool r)).
Proof.
  split; [intros combo; apply combinations_iff|apply combinations_NoDup].
Qed.

Lemma combinations_subsequences_witness :
  [1; 3] ∈ combinations [1; 2; 3] 2 ∧ NoDup (combinations [1; 2; 3] 2).
Proof.
  destruct (combinations_subsequences [1; 2; 3] 2) as [Hiff Hnodup].
  split.
  - apply Hiff. split; [done|]. repeat constructor.
  - apply Hnodup. repeat constructor; intros Hin; list_cases Hin.
Defined.

(** ** Which sizes a bucket gives *)

Section bucket_sizes_exact.
Implicit Types (members combo : list Person.t).

Lemma first_valid_some_share members size :
  is_Some (first_valid (combinations members size)) ↔ some_share members size.
Proof.
  unfold some_share. split.
  - intros [[combo common] [Hfirst _]%first_valid_spec].
    apply first_such_elem in Hfirst. by exists combo.
  - intros (combo & Hin & Hshare).
    destruct (first_valid (combinations members size)) eqn:Hnone; [done|].
    destruct Hshare. by eapply first_valid_none.
Qed.

(** If some people share a slot, so do the first so many of them. *)
Lemma some_share_down members size :
  1 ≤ size → some_share members (S size) → some_share members size.
Proof.
  intros Hsize (combo & [Hlen Hsub]%combinations_iff & Hshare).
  exists (take size combo). split.
  - apply combinations_iff. split; [rewrite length_take; lia|].
    trans combo; [apply sublist_take|done].
  - destruct (find_common_slots (map Person.avail combo)) as [|slot l] eqn:Hc;
      [done|].
    assert (Hin : slot ∈ find_common_slots (map Person.avail (take size combo))).
    { apply (find_common_slots_antitone _ (map Person.avail combo)).
      - destruct combo, size; simpl in *; (lia || done).
      - intros avail (m & -> & Hm)%list_elem_of_fmap.
        apply list_elem_of_fmap. exists m. split; [done|].
        eapply elem_of_sublist; [exact Hm|apply sublist_take].
      - rewrite Hc. by left. }
    intros Hnil. rewrite Hnil in Hin. by apply elem_of_nil in Hin.
Qed.

Lemma size_loop_sizes_exact gender study members sizes counter size :
  size ∈ map (λ g, length (Group.members g))
             (fst (foldl (size_step gender study members) ([], counter) sizes))
  ↔ size ∈ sizes ∧ some_share members size.
Proof.
  revert counter. induction sizes as [|sz sizes IH]; intros counter.
  - simpl. split; [by intros ?%elem_of_nil|by intros [?%elem_of_nil _]].
  - rewrite emitted_cons_size.
    destruct (first_valid (combinations members sz)) as [[combo common]|]
      eqn:Hfirst.
    + assert (Hshare : some_share members sz).
      { apply first_valid_some_share. by rewrite Hfirst. }
      apply first_valid_spec in Hfirst as [[Hin _]%first_such_elem _].
      apply combinations_elem in Hin as [Hlen _].
      simpl. rewrite length_map, Hlen, !elem_of_cons, IH. split.
      * intros [->|[? ?]]; [by split; [left|]|by split; [right|]].
      * intros [[->|?] ?]; [by left|by right].
    + assert (Hnone : ¬ some_share members sz).
      { intros Hshare%first_valid_some_share. rewrite Hfirst in Hshare.
        by destruct Hshare. }
      rewrite IH, elem_of_cons. split.
      * intros [? ?]. by split; [right|].
      * intros [[->|?] ?]; [done|by split].
Qed.
End bucket_sizes_exact.

(** X4.  A bucket gives a group of a size among 5, 4, 3, 2 exactly when some
    combination of that many of its people has a common slot.  So with a
    group of some size it gives a group of every smaller size down to 2, and
    it gives no group at all exactly when no two of its people have a common
    slot. *)
Theorem emitted_sizes counter gender study (members : list Person.t) :
  let new := emitted counter ((gender, study), members) in
  let sizes := map (λ g, length (Group.members g)) new in
  (∀ size, size ∈ sizes ↔ size ∈ SIZES ∧ some_share members size)
  ∧ (∀ size, 2 ≤ size → S size ∈ sizes → size ∈ sizes)
  ∧ (new = [] ↔ ¬ some_share members 2).
Proof.
  cbv zeta. unfold emitted, match_bucket.
  assert (Hexact := size_loop_sizes_exact gender study members SIZES counter).
  split_and!.
  - done.
  - intros size Hsize [Hin Hshare]%Hexact. apply Hexact. split.
    + unfold SIZES in *. rewrite !elem_of_cons, elem_of_nil in Hin |- *. lia.
    + apply some_share_down; [lia|done].
  - split.
    + intros Hnil Hshare.
      assert (Hin : 2 ∈ map (λ g, length (Group.members g))
        (fst (foldl (size_step gender study members) ([], counter) SIZES))).
      { apply Hexact. split; [|done]. unfold SIZES. list_mem. }
      rewrite Hnil in Hin. by apply elem_of_nil in Hin.
    + intros Hnone.
      destruct (fst (foldl (size_step gender study members) ([], counter) SIZES))
        as [|g new] eqn:Hnew; [done|].
      destruct Hnone.
      assert (Hin : length (Group.members g) ∈ SIZES
                    ∧ some_share members (length (Group.members g))).
      { apply Hexact. simpl. by left. }
      destruct Hin as [Hin Hshare]. unfold SIZES in Hin.
      list_cases Hin; rewrite Hin in Hshare;
        repeat first [exact Hshare | apply some_share_down; [lia|]].
Qed.

Lemma emitted_sizes_witness :
  3 ∈ map (λ g, length (Group.members g))
          (emitted 1 (("female", "discovery"), Sample.cohort)).
Proof.
  destruct (emitted_sizes 1 "female" "discovery" Sample.cohort)
    as (_ & Hdown & _).
  apply Hdown; [lia|]. vm_compute. list_mem.
Defined.

(** ** Rows and people *)

Section rows_people.
Implicit Types (cols : list string) (row : gmap string cell)
  (rws : list (gmap string cell)) (people acc : list Person.t).

(** What a row that can be read gives. *)
Lemma make_person_ok cols row n p :
  make_person cols row n = Ok p →
  ∃ s avail,
    row_get row COL_GENDER (Text "") = Text s
    ∧ avail_of_row row cols ∅ = Ok avail
    ∧ Person.id p
      = str (row_get row COL_FIRST (Text "")) +:+ "_"
        +:+ str (row_get row COL_LAST (Text "")) +:+ "_" +:+ pretty n
    ∧ Person.gender p = Py.lower (Py.strip s)
    ∧ Person.next_study p
      = get_next_faith_study (row_get row COL_COMPLETED (Text ""))
    ∧ Person.willing_lead p
      = bool_decide
          (Py.lower (Py.strip (str (row_get row COL_WILLING (Text ""))))
           = "yes")
    ∧ Person.already_led p = row_get row COL_LED (Text "")
    ∧ Person.first p = row_get row COL_FIRST (Text "")
    ∧ Person.last p = row_get row COL_LAST (Text "")
    ∧ Person.avail p = avail.
Proof.
  unfold make_person.
  destruct (row_get row COL_GENDER (Text "")) as [|s|z]; [done| |done].
  simpl. destruct (avail_of_row row cols ∅) as [avail|e]; [|done].
  simpl. intros [= <-]. by exists s, avail.
Qed.

Lemma read_people_lookup cols rws acc people :
  read_people cols rws acc = Ok people →
  ∃ new,
    people = acc ++ new ∧ length new = length rws
    ∧ ∀ i row, rws !! i = Some row →
               ∃ p, new !! i = Some p
                    ∧ make_person cols row (length acc + i) = Ok p.
Proof.
  revert acc. induction rws as [|row rws IH]; intros acc.
  - intros [= <-]. exists []. by rewrite app_nil_r.
  - rewrite read_people_cons.
    destruct (make_person cols row (length acc)) as [person|e] eqn:Hp; [|done].
    intros (new & -> & Hlen & Hnew)%IH. exists (person :: new).
    split_and!.
    + by rewrite <- (assoc_L (++)).
    + simpl. by rewrite Hlen.
    + intros [|i] r Hr; simpl in *.
      * injection Hr as <-. exists person. by rewrite Nat.add_0_r.
      * destruct (Hnew i r Hr) as (p & Hlook & Hmake). exists p.
        split; [done|]. rewrite length_app in Hmake. simpl in Hmake.
        by replace (length acc + S i) with (length acc + 1 + i) by lia.
Qed.

(** The people of a pass are the rows of the table, read one by one. *)
Lemma pass_people df groups people :
  process_csv_data df = Ok (groups, people) →
  length people = length (rows df)
  ∧ ∀ i p, people !! i = Some p →
           ∃ row, rows df !! i = Some row
                  ∧ make_person (availability_cols df) row i = Ok p.
Proof.
  intros [(new & -> & Hlen & Hnew)%read_people_lookup _]%process_csv_data_ok.
  simpl. split; [done|]. intros i p Hp.
  destruct (rows df !! i) as [row|] eqn:Hrow.
  - destruct (Hnew i row Hrow) as (p' & Hp' & Hmake).
    exists row. split; [done|]. simpl in Hmake. congruence.
  - apply lookup_ge_None in Hrow. apply lookup_lt_Some in Hp. lia.
Qed.
End rows_people.

(** ** Ids *)

Section ids.

Lemma str_app_assoc a b c : (a +:+ b) +:+ c = a +:+ b +:+ c.
Proof. induction a as [|x a IH]; [done|]. by rewrite !app_cons, IH. Qed.

Lemma pretty_N_char_digit x : is_Some (Ascii.is_nat (pretty_N_char x)).
Proof. unfold pretty_N_char. by repeat case_match. Qed.

Lemma pretty_N_go_digits (x : N) s :
  all_digits s = true → all_digits (pretty_N_go x s) = true.
Proof.
  revert s. induction (N.lt_wf_0 x) as [x _ IH]; intros s Hs.
  destruct (decide (x = 0)%N) as [->|Hx]; [by rewrite pretty_N_go_0|].
  rewrite pretty_N_go_step by lia. apply IH.
  - apply N.div_lt; lia.
  - simpl. rewrite Hs, andb_true_r.
    apply bool_decide_eq_true, pretty_N_char_digit.
Qed.

Lemma pretty_nat_digits (n : nat) : all_digits (pretty n) = true.
Proof.
  unfold pretty, pretty_nat, pretty, pretty_N.
  case_decide; [done|]. by apply pretty_N_go_digits.
Qed.

Lemma all_digits_underscore_free s :
  all_digits s = true → underscore_free s = true.
Proof.
  induction s as [|c s IH]; [done|]. simpl.
  intros [Hc Hs]%andb_true_iff. rewrite (IH Hs), andb_true_r.
  apply bool_decide_eq_true in Hc.
  destruct c as [[] [] [] [] [] [] [] []]; by destruct Hc.
Qed.

Lemma underscore_not_free a b : underscore_free (a +:+ String "_" b) = false.
Proof.
  induction a as [|c a IH]; [done|]. rewrite app_cons. simpl.
  by rewrite IH, andb_false_r.
Qed.

(** What follows the last underscore of a text is determined by the text. *)
Lemma after_last_underscore a b d d' :
  underscore_free d = true → underscore_free d' = true →
  a +:+ String "_" d = b +:+ String "_" d' → d = d'.
Proof.
  intros Hd Hd'. revert b. induction a as [|c a IH]; intros [|c' b] Heq.
  - by injection Heq.
  - rewrite app_cons in Heq. injection Heq as _ Heq.
    rewrite Heq, underscore_not_free in Hd. done.
  - rewrite app_cons in Heq. injection Heq as _ Heq.
    rewrite <- Heq, underscore_not_free in Hd'. done.
  - rewrite !app_cons in Heq. injection Heq as _ Heq. by eapply IH.
Qed.

(** An id made of a prefix, an underscore and a number gives the number. *)
Lemma numbered_inj (a b : string) (n n' : nat) :
  a +:+ "_" +:+ pretty n = b +:+ "_" +:+ pretty n' → n = n'.
Proof.
  intros Heq. apply (inj pretty).
  apply (after_last_underscore a b);
    [apply all_digits_underscore_free, pretty_nat_digits..|done].
Qed.

End ids.

Lemma pass_person_id df groups people i p :
  process_csv_data df = Ok (groups, people) → people !! i = Some p →
  ∃ row, rows df !! i = Some row
         ∧ Person.id p
           = str (row_get row COL_FIRST (Text "")) +:+ "_"
             +:+ str (row_get row COL_LAST (Text "")) +:+ "_" +:+ pretty i.
Proof.
  intros [_ Hrows]%pass_people Hp.
  destruct (Hrows i p Hp) as (row & Hrow & Hmake).
  exists row. split; [done|].
  by apply make_person_ok in Hmake as (s & avail & _ & _ & Hid & _).
Qed.

Lemma pass_ids_NoDup df groups people :
  process_csv_data df = Ok (groups, people) → NoDup (map Person.id people).
Proof.
  intros Hrun. apply NoDup_alt. intros i j id Hi Hj.
  apply list_lookup_fmap_Some in Hi as (p & -> & Hp).
  apply list_lookup_fmap_Some in Hj as (q & Hid & Hq).
  destruct (pass_person_id _ _ _ _ _ Hrun Hp) as (row & _ & Hp_id).
  destruct (pass_person_id _ _ _ _ _ Hrun Hq) as (row' & _ & Hq_id).
  rewrite Hp_id, Hq_id in Hid.
  rewrite <- !(str_app_assoc _ "_" (str _ +:+ _)) in Hid.
  rewrite <- !(str_app_assoc _ (str _) _) in Hid.
  by apply numbered_inj in Hid.
Qed.

(** Two people of a pass with the same id are the same person. *)
Lemma pass_same_id df groups people p q :
  process_csv_data df = Ok (groups, people) →
  p ∈ people → q ∈ people → Person.id p = Person.id q → p = q.
Proof.
  intros Hnodup%pass_ids_NoDup [i Hi]%list_elem_of_lookup
    [j Hj]%list_elem_of_lookup Hid.
  assert (i = j) as ->; [|congruence].
  apply (NoDup_lookup _ i j (Person.id p) Hnodup);
    rewrite list_lookup_fmap; [by rewrite Hi|by rewrite Hj, Hid].
Qed.

(** X5.  The people of a pass come one per row, in row order, and the id of
    the person of row [i] is the text of the first-name cell, of the
    last-name cell and the number [i], joined by underscores; no two people
    of a pass have the same id, whatever their names. *)
Theorem person_ids_unique df groups people :
  process_csv_data df = Ok (groups, people) →
  length people = length (rows df)
  ∧ (∀ i p, people !! i = Some p →
            ∃ row, rows df !! i = Some row
                   ∧ Person.id p
                     = str (row_get row COL_FIRST (Text "")) +:+ "_"
                       +:+ str (row_get row COL_LAST (Text "")) +:+ "_"
                       +:+ pretty i)
  ∧ NoDup (map Person.id people).
Proof.
  intros Hrun. split_and!.
  - by apply pass_people in Hrun as [? _].
  - intros i p. by apply (pass_person_id df groups).
  - by eapply pass_ids_NoDup.
Qed.

Lemma person_ids_unique_witness :
  match process_csv_data Sample.three with
  | Ok (_, people) => NoDup (map Person.id people)
  | Raise _ => False
  end.
Proof.
  destruct (process_csv_data Sample.three) as [[groups people]|e] eqn:Hrun;
    [|by vm_compute in Hrun].
  by destruct (person_ids_unique _ _ _ Hrun) as (_ & _ & Hnodup).
Defined.

(** ** Group ids *)

Section group_ids.

Lemma size_loop_ids gender study members sizes counter :
  map Group.id
      (fst (foldl (size_step gender study members) ([], counter) sizes))
  = map (λ n, "G" +:+ pretty n)
        (seq counter
             (length (fst (foldl (size_step gender study members)
                                 ([], counter) sizes)))).
Proof.
  revert counter. induction sizes as [|size sizes IH]; intros counter; [done|].
  rewrite emitted_cons_size.
  destruct (first_valid (combinations members size)) as [[combo common]|];
    [|apply IH].
  simpl. by rewrite IH.
Qed.

Lemma bucket_loop_ids grouped results counter :
  ∃ new,
    foldl match_bucket (results, counter) grouped
    = (results ++ new, counter + length new)
    ∧ map Group.id new
      = map (λ n, "G" +:+ pretty n) (seq counter (length new)).
Proof.
  revert results counter.
  induction grouped as [|bucket grouped IH]; intros results counter; simpl.
  - exists []. by rewrite app_nil_r, Nat.add_0_r.
  - rewrite match_bucket_appends.
    destruct (IH (results ++ emitted counter bucket)
                 (counter + length (emitted counter bucket)))
      as (new & -> & Hids).
    exists (emitted counter bucket ++ new). split.
    + rewrite (assoc_L (++)), length_app. f_equal. lia.
    + rewrite map_app, length_app, seq_app, map_app, Hids. f_equal.
      destruct bucket as [[gender study] members].
      apply size_loop_ids.
Qed.

Lemma group_label_inj : Inj (=) (=) (λ n : nat, "G" +:+ pretty n).
Proof. intros n n' [= Heq]. by apply (inj pretty). Qed.

End group_ids.

(** X6.  The groups of a pass are numbered in the order they are made: the
    group at position [i] has the id G followed by [i + 1], across all
    buckets, so no two groups of a pass have the same id. *)
Theorem group_ids_sequential df groups people :
  process_csv_data df = Ok (groups, people) →
  (∀ i g, groups !! i = Some g → Group.id g = "G" +:+ pretty (S i))
  ∧ NoDup (map Group.id groups).
Proof.
  intros [_ ->]%process_csv_data_ok. unfold match_groups.
  destruct (bucket_loop_ids (bucket_people people) [] 1) as (new & -> & Hids).
  simpl. split.
  - intros i g Hg.
    assert (Hi : map Group.id new !! i = Some (Group.id g))
      by by rewrite list_lookup_fmap, Hg.
    rewrite Hids, list_lookup_fmap in Hi.
    destruct (seq 1 (length new) !! i) as [n|] eqn:Hn; [|done].
    apply lookup_seq in Hn as [-> _]. by injection Hi.
  - rewrite Hids. apply (NoDup_fmap_2 _ (Inj0 := group_label_inj)), NoDup_seq.
Qed.

Lemma group_ids_sequential_witness :
  match process_csv_data Sample.five with
  | Ok (groups, _) => NoDup (map Group.id groups)
  | Raise _ => False
  end.
Proof.
  destruct (process_csv_data Sample.five) as [[groups people]|e] eqn:Hrun;
    [|by vm_compute in Hrun].
  by destruct (group_ids_sequential _ _ _ Hrun) as [_ Hnodup].
Defined.

(** ** When the pass returns *)

Section readable.
Implicit Types (cols : list string) (row : gmap string cell)
  (rws : list (gmap string cell)) (acc : list Person.t).

Lemma avail_of_row_raise row cols (d : gmap string cell) e :
  avail_of_row row cols d = Raise e →
  ∃ col, col ∈ cols ∧ row !! col = None ∧ e = KeyError col.
Proof.
  revert d. induction cols as [|col cols IH]; intros d; [done|]. simpl.
  unfold row_item. destruct (row !! col) as [v|] eqn:Hv; simpl.
  - intros (c & ? & ? & ?)%IH. exists c. by split; [right|].
  - intros [= <-]. exists col. by split; [left|].
Qed.

Lemma avail_of_row_ok row cols (d avail : gmap string cell) :
  avail_of_row row cols d = Ok avail →
  ∀ col, col ∈ cols → is_Some (row !! col).
Proof.
  revert d. induction cols as [|col cols IH]; intros d.
  - by intros _ col ?%elem_of_nil.
  - simpl. unfold row_item. destruct (row !! col) as [v|] eqn:Hv; [|done].
    simpl. intros Hrest c [->|Hc]%elem_of_cons; [by rewrite Hv|].
    by eapply IH.
Qed.

Lemma make_person_readable cols row n p :
  make_person cols row n = Ok p → readable_row cols row.
Proof.
  intros (s & avail & Hs & Havail & _)%make_person_ok. split; [by exists s|].
  by eapply avail_of_row_ok.
Qed.

(** Why a row is refused. *)
Lemma make_person_raise cols row n e :
  make_person cols row n = Raise e →
  (∃ v, row !! COL_GENDER = Some v ∧ (∀ s, v ≠ Text s) ∧ e = AttributeError v)
  ∨ (∃ col, col ∈ cols ∧ row !! col = None ∧ e = KeyError col).
Proof.
  assert (Hget : ∀ v, row_get row COL_GENDER (Text "") = v →
                      (∀ s, v ≠ Text s) → row !! COL_GENDER = Some v).
  { intros v. unfold row_get. destruct (row !! COL_GENDER); [congruence|].
    intros <- Hnot. by destruct (Hnot ""). }
  unfold make_person.
  destruct (row_get row COL_GENDER (Text "")) as [|s|z] eqn:Hg; simpl.
  - intros [= <-]. left. exists NaN. split_and!; [by apply Hget|done..].
  - destruct (avail_of_row row cols ∅) eqn:Ha; [done|]. simpl.
    intros [= <-]. right. by eapply avail_of_row_raise.
  - intros [= <-]. left. exists (Int z). split_and!; [by apply Hget|done..].
Qed.

Lemma readable_not_raise cols row n e :
  readable_row cols row → make_person cols row n ≠ Raise e.
Proof.
  intros [Hg Hc]. destruct (make_person_total cols row n Hg Hc) as [p ->]. done.
Qed.

Lemma read_people_raise cols rws acc e :
  read_people cols rws acc = Raise e →
  ∃ before row after,
    rws = before ++ row :: after
    ∧ Forall (readable_row cols) before
    ∧ make_person cols row (length acc + length before) = Raise e.
Proof.
  revert acc. induction rws as [|row rws IH]; intros acc; [done|].
  rewrite read_people_cons.
  destruct (make_person cols row (length acc)) as [p|e'] eqn:Hp.
  - intros (before & r & after & -> & Hbefore & Hraise)%IH.
    exists (row :: before), r, after. split_and!; [done| |].
    + constructor; [by eapply make_person_readable|done].
    + rewrite length_app in Hraise. simpl in *.
      by replace (length acc + S (length before))
        with (length acc + 1 + length before) by lia.
  - intros [= <-]. exists [], row, rws. split_and!; [done|constructor|].
    simpl. by rewrite Nat.add_0_r.
Qed.

Lemma read_people_ok_iff cols rws acc :
  (∃ people, read_people cols rws acc = Ok people) ↔
  Forall (readable_row cols) rws.
Proof.
  split.
  - intros [people Hok]. revert acc Hok.
    induction rws as [|row rws IH]; intros acc; [constructor|].
    rewrite read_people_cons.
    destruct (make_person cols row (length acc)) as [p|e] eqn:Hp; [|done].
    intros Hok. constructor; [by eapply make_person_readable|by eapply IH].
  - intros Hall. apply read_people_total. intros row Hrow.
    by apply (proj1 (Forall_forall _ _) Hall).
Qed.
End readable.

(** X7.  The pass returns exactly when every row can be read: its gender
    cell, if the table has that column, is text, and it has a cell for every
    availability column.  Otherwise it raises for the first row that cannot
    be read, whatever the later rows hold: an attribute error on a gender
    cell that is not text, else a key error on the first availability column
    without a cell. *)
Theorem pass_returns_iff df :
  ((∃ groups people, process_csv_data df = Ok (groups, people)) ↔
   Forall (readable_row (availability_cols df)) (rows df))
  ∧ ∀ e, process_csv_data df = Raise e →
         ∃ before row after,
           rows df = before ++ row :: after
           ∧ Forall (readable_row (availability_cols df)) before
           ∧ ((∃ v, row !! COL_GENDER = Some v ∧ (∀ s, v ≠ Text s)
                    ∧ e = AttributeError v)
              ∨ (∃ col, col ∈ availability_cols df ∧ row !! col = None
                        ∧ e = KeyError col)).
Proof.
  split.
  - rewrite <- (read_people_ok_iff _ _ []). split.
    + intros (groups & people & [Hok _]%process_csv_data_ok). by exists people.
    + intros [people Hok]. exists (match_groups (bucket_people people)), people.
      by apply process_csv_data_ok.
  - intros e. unfold process_csv_data.
    destruct (read_people _ _ _) as [people|e'] eqn:Hread; [done|].
    simpl. intros [= ->].
    apply read_people_raise in Hread
      as (before & row & after & Hrows & Hbefore & Hraise).
    exists before, row, after. split_and!; [done..|].
    by eapply make_person_raise.
Qed.

Lemma pass_returns_iff_witness :
  ∃ before row after,
    rows Sample.blank_gender = before ++ row :: after
    ∧ length before = 1
    ∧ row !! COL_GENDER = Some NaN.
Proof.
  destruct (pass_returns_iff Sample.blank_gender) as [_ Hraise].
  destruct (Hraise (AttributeError NaN))
    as (before & row & after & Hrows & Hbefore & Hwhy); [by vm_compute|].
  exists before, row, after. split; [done|].
  destruct Hwhy as [(v & Hv & _ & [= <-])|(col & _ & _ & [=])].
  split; [|done].
  destruct before as [|r0 [|r1 before]]; [| done |].
  - injection Hrows as <- _. by vm_compute in Hv.
  - exfalso. apply (f_equal length) in Hrows. simpl in Hrows.
    rewrite length_app in Hrows. simpl in Hrows. lia.
Defined.

(** ** Availability columns *)

Section availability.

Lemma get_loc_after label before after :
  label ∉ before → get_loc label (before ++ label :: after)
                  = Some (length before).
Proof.
  intros Hnot. unfold get_loc.
  destruct (list_find (λ col, col = label) (before ++ label :: after))
    as [[i x]|] eqn:Hfind.
  - apply list_find_Some in Hfind as (Hi & -> & Hfirst). simpl. f_equal.
    destruct (Nat.lt_trichotomy i (length before)) as [Hlt|[->|Hgt]];
      [|done|].
    + rewrite lookup_app_l in Hi by done.
      destruct Hnot. by eapply list_elem_of_lookup_2.
    + destruct (Hfirst (length before) label); [|done..].
      by rewrite list_lookup_middle.
  - apply list_find_None in Hfind.
    apply Forall_app in Hfind as [_ Hfind].
    apply Forall_cons in Hfind as [Hfind _]. done.
Qed.

Lemma get_loc_absent label cols : label ∉ cols → get_loc label cols = None.
Proof.
  intros Hnot. unfold get_loc.
  assert (list_find (λ col, col = label) cols = None) as ->; [|done].
  apply list_find_None, Forall_forall. by intros col Hcol ->.
Qed.

Lemma avail_of_row_lookup row cols (d avail : gmap string cell) slot :
  avail_of_row row cols d = Ok avail →
  avail !! slot
  = if bool_decide (slot ∈ cols)
    then (λ v, Text (Py.strip (str v))) <$> row !! slot
    else d !! slot.
Proof.
  revert d. induction cols as [|col cols IH]; intros d.
  - by intros [= <-].
  - simpl. unfold row_item. destruct (row !! col) as [v|] eqn:Hv; [|done].
    simpl. intros ->%IH.
    destruct (decide (slot ∈ cols)) as [Hin|Hnot].
    + rewrite !bool_decide_eq_true_2; [done|by right|done].
    + rewrite (bool_decide_eq_false_2 _ Hnot).
      destruct (decide (col = slot)) as [->|Hne].
      * rewrite lookup_insert_eq, bool_decide_eq_true_2 by by left.
        by rewrite Hv.
      * rewrite lookup_insert_ne by done.
        rewrite bool_decide_eq_false_2; [done|].
        intros [?|?]%elem_of_cons; congruence.
Qed.

Lemma names_weekday_contains value :
  names_weekday value ↔
  ∃ day, day ∈ DAY_NAMES ∧ Py.contains day (Py.lower (str value)) = true.
Proof.
  unfold names_weekday. split.
  - intros (day & before & after & Hin & Heq). exists day. split; [done|].
    apply contains_iff. eauto.
  - intros (day & Hin & (before & after & Heq)%contains_iff). eauto 6.
Qed.

(** Stripping a value before it is stored does not change whether it names
    a weekday. *)
Lemma names_weekday_stripped value :
  names_weekday (Text (Py.strip (str value))) ↔ names_weekday value.
Proof.
  rewrite !names_weekday_contains. simpl. rewrite lower_strip.
  split; intros (day & Hin & Hday); exists day; (split; [done|]);
    destruct (DAY_NAMES_solid day Hin) as [Hs He].
  - by rewrite contains_strip in Hday.
  - by rewrite contains_strip.
Qed.

End availability.

(** X8.  When the table has the studies-led column, the availability columns
    are exactly the columns after it, whatever their labels, and the columns
    before it are never read as slots; when the table has no such column,
    they are the columns whose label contains "timeslot" in any case, or
    both an opening and a closing square bracket. *)
Theorem availability_cols_after_led df :
  (∀ before after,
     columns df = before ++ COL_LED :: after → COL_LED ∉ before →
     availability_cols df = after)
  ∧ (COL_LED ∉ columns df →
     availability_cols df = List.filter looks_like_slot (columns df)).
Proof.
  unfold availability_cols. split.
  - intros before after -> Hnot. rewrite get_loc_after by done.
    rewrite cons_middle, (assoc_L (++)).
    apply drop_app_length'. rewrite length_app. simpl. lia.
  - intros Hnot. by rewrite get_loc_absent.
Qed.

Lemma availability_cols_after_led_witness :
  availability_cols Sample.three = [Sample.SLOT].
Proof.
  destruct (availability_cols_after_led Sample.three) as [Hafter _].
  apply (Hafter [COL_FIRST; COL_LAST; COL_GENDER; COL_COMPLETED; COL_WILLING]).
  - reflexivity.
  - intros Hin. list_cases Hin.
Defined.

(** X9.  The availability map of the person of a row has an entry for
    exactly the availability columns, and the person is free on a slot
    exactly when the slot is an availability column and the row's cell for
    it names a weekday; a blank cell never counts as free. *)
Theorem person_availability df groups people i p row :
  process_csv_data df = Ok (groups, people) →
  people !! i = Some p → rows df !! i = Some row →
  (∀ slot, is_Some (Person.avail p !! slot) ↔ slot ∈ availability_cols df)
  ∧ (∀ slot, free_on (Person.avail p) slot ↔
             slot ∈ availability_cols df ∧ free_on row slot)
  ∧ (∀ slot, row !! slot = Some NaN → ¬ free_on (Person.avail p) slot).
Proof.
  intros [_ Hrows]%pass_people Hp Hrow.
  destruct (Hrows i p Hp) as (row' & Hrow' & Hmake).
  assert (row' = row) as -> by congruence.
  pose proof (make_person_readable _ _ _ _ Hmake) as [_ Hcells].
  apply make_person_ok in Hmake
    as (_ & avail & _ & Havail & _ & _ & _ & _ & _ & _ & _ & ->).
  assert (Hlook := λ slot, avail_of_row_lookup row _ ∅ avail slot Havail).
  assert (Hfree : ∀ slot, free_on avail slot ↔
                          slot ∈ availability_cols df ∧ free_on row slot).
  { intros slot. unfold free_on. rewrite Hlook. case_bool_decide as Hin.
    - split.
      + intros (value & Hvalue & Hday). split; [done|].
        destruct (row !! slot) as [v|]; [|done]. injection Hvalue as <-.
        exists v. split; [done|]. by apply names_weekday_stripped.
      + intros (_ & v & Hv & Hday). rewrite Hv. simpl. eexists.
        split; [done|]. by apply names_weekday_stripped.
    - split; [by intros (? & ? & _)|by intros [? _]]. }
  split_and!; [|done|].
  - intros slot. rewrite Hlook. case_bool_decide as Hin.
    + split; [done|]. intros _. destruct (Hcells slot Hin) as [v ->]. by eexists.
    + split; [by intros [? ?]|done].
  - intros slot Hblank [_ (v & Hv & Hday)]%Hfree.
    assert (v = NaN) as -> by congruence.
    apply names_a_day_iff in Hday. done.
Qed.

Lemma person_availability_witness :
  match process_csv_data Sample.three with
  | Ok (_, p :: _) => free_on (Person.avail p) Sample.SLOT
  | _ => False
  end.
Proof.
  destruct (process_csv_data Sample.three) as [[groups [|p people]]|e]
    eqn:Hrun; [by vm_compute in Hrun| |by vm_compute in Hrun].
  destruct (person_availability Sample.three groups (p :: people) 0 p
              (Sample.woman "Ann" "no") Hrun eq_refl eq_refl)
    as (_ & Hfree & _).
  apply Hfree. split; [vm_compute; list_mem|].
  exists (Text "Mondays"). split; [by vm_compute|].
  apply names_a_day_iff. by vm_compute.
Defined.

(** ** People and groups of a pass *)

Section pass_shape.

Lemma get_next_faith_study_range completed study :
  get_next_faith_study completed = Some study → study ∈ FAITH_STUDIES.
Proof.
  unfold get_next_faith_study. destruct (isna completed).
  - intros [= <-]. by left.
  - intros [Hin _]%find_first_such%first_such_elem. done.
Qed.

Lemma pass_person_fields df groups people p :
  process_csv_data df = Ok (groups, people) → p ∈ people →
  (∃ s, Person.gender p = Py.lower (Py.strip s))
  ∧ (∀ study, Person.next_study p = Some study → study ∈ FAITH_STUDIES)
  ∧ ∃ a b, Person.id p = a +:+ "_" +:+ b.
Proof.
  intros [_ Hrows]%pass_people [i Hi]%list_elem_of_lookup.
  destruct (Hrows i p Hi) as (row & _ & Hmake).
  apply make_person_ok in Hmake
    as (s & avail & _ & _ & Hid & Hg & Hn & _).
  split_and!.
  - by exists s.
  - intros study Hstudy. rewrite Hn in Hstudy.
    by eapply get_next_faith_study_range.
  - rewrite Hid. eauto.
Qed.

Lemma sublist_map {A B} (f : A → B) (l1 l2 : list A) :
  l1 `sublist_of` l2 → map f l1 `sublist_of` map f l2.
Proof. induction 1; simpl; by constructor. Qed.

(** A group of a pass, unfolded: the bucket it comes from and the
    combination it is made of. *)
Lemma pass_group df groups people g :
  process_csv_data df = Ok (groups, people) → g ∈ groups →
  ∃ counter gender study combo,
    g = make_group counter gender study combo
          (find_common_slots (map Person.avail combo))
    ∧ combo `sublist_of` people
    ∧ 2 ≤ length combo ≤ 5
    ∧ find_common_slots (map Person.avail combo) ≠ []
    ∧ NoDup (map Person.id combo)
    ∧ ∀ m, m ∈ combo →
           m ∈ people ∧ Person.gender m = gender
           ∧ Person.next_study m = Some study.
Proof.
  intros Hrun Hg. pose proof (pass_ids_NoDup _ _ _ Hrun) as Hnodup.
  apply process_csv_data_ok in Hrun as [_ ->].
  apply match_groups_elem in Hg
    as (gender & study & members & counter & size & combo & common
        & Hbucket & Hsize & Hfirst & ->).
  apply bucket_people_members in Hbucket as [Hsub Hmembers].
  apply first_valid_spec in Hfirst as [Hfirst ->].
  apply first_such_elem in Hfirst as [Hcombo Hcommon].
  apply combinations_elem in Hcombo as [Hlen Hcombo].
  apply SIZES_range in Hsize.
  assert (Hpeople : combo `sublist_of` people) by by trans members.
  exists counter, gender, study, combo. split_and!; [done|done|lia|lia|done| |].
  - eapply sublist_NoDup; [exact Hnodup|]. by apply sublist_map.
  - intros m Hm. split; [by eapply elem_of_sublist|].
    destruct (Hmembers m) as (_ & ? & ?); [by eapply elem_of_sublist|done].
Qed.

Lemma member_details_other (combo : list Person.t)
    (d : gmap string Details.t) id :
  id ∉ map Person.id combo →
  foldl (λ d m, <[Person.id m := details_of m]> d) d combo !! id = d !! id.
Proof.
  revert d. induction combo as [|x combo IH]; intros d Hnot; [done|]. simpl.
  rewrite IH.
  - apply lookup_insert_ne. intros Heq. apply Hnot. simpl. rewrite Heq. by left.
  - intros Hin. apply Hnot. by right.
Qed.

Lemma member_details_member (combo : list Person.t)
    (d : gmap string Details.t) m :
  NoDup (map Person.id combo) → m ∈ combo →
  foldl (λ d m, <[Person.id m := details_of m]> d) d combo !! Person.id m
  = Some (details_of m).
Proof.
  revert d. induction combo as [|x combo IH]; intros d Hnodup Hm.
  - by apply elem_of_nil in Hm.
  - simpl in *. apply NoDup_cons in Hnodup as [Hx Hnodup].
    apply elem_of_cons in Hm as [->|Hm]; [|by apply IH].
    by rewrite member_details_other, lookup_insert_eq.
Qed.

Lemma member_names_combo (combo : list Person.t) (d : gmap string Details.t) :
  (∀ m, m ∈ combo → d !! Person.id m = Some (details_of m)) →
  omap (λ id, Details.name <$> d !! id) (map Person.id combo)
  = map display_name combo.
Proof.
  induction combo as [|x combo IH]; intros Hall; [done|]. simpl.
  rewrite (Hall x) by by left. simpl. f_equal.
  unfold display_name in IH. apply IH. intros m Hm. apply Hall. by right.
Qed.

Lemma truthy_with_underscore a b : Py.truthy (a +:+ "_" +:+ b) = true.
Proof. by destruct a. Qed.

End pass_shape.

(** X10.  A person of a pass has as next study one of the five studies of
    the progression or none; its gender is the gender cell stripped and
    lower-cased, which stripping or lower-casing again leaves unchanged; and
    the person is eligible for grouping exactly when it has a next study and
    its gender is not empty. *)
Theorem person_normalised df groups people p :
  process_csv_data df = Ok (groups, people) → p ∈ people →
  (Person.next_study p = None
   ∨ ∃ study, study ∈ FAITH_STUDIES ∧ Person.next_study p = Some study)
  ∧ Py.lower (Person.gender p) = Person.gender p
  ∧ Py.strip (Person.gender p) = Person.gender p
  ∧ (eligible p = true ↔
     is_Some (Person.next_study p) ∧ Person.gender p ≠ "").
Proof.
  intros Hrun Hp.
  destruct (pass_person_fields _ _ _ _ Hrun Hp) as ([s Hg] & Hstudy & _).
  destruct (normal_form_fixed s) as [Hlower Hstrip].
  split_and!.
  - destruct (Person.next_study p) as [study|]; [|by left].
    right. exists study. split; [by apply Hstudy|done].
  - by rewrite Hg.
  - by rewrite Hg.
  - unfold eligible. destruct (Person.next_study p) as [study|] eqn:Hn.
    + specialize (Hstudy study eq_refl).
      apply FAITH_STUDIES_nonempty in Hstudy.
      rewrite Hg, Hstrip, <- Hg.
      destruct study; [done|]. simpl.
      destruct (Person.gender p); simpl; split; try done; by intros [_ ?].
    + split; [done|]. by intros [[? ?] _].
Qed.

Lemma person_normalised_witness :
  match process_csv_data Sample.three with
  | Ok (_, p :: _) => eligible p = true
  | _ => False
  end.
Proof.
  destruct (process_csv_data Sample.three) as [[groups [|p people]]|e]
    eqn:Hrun; [by vm_compute in Hrun| |by vm_compute in Hrun].
  destruct (person_normalised _ _ _ p Hrun) as (_ & _ & _ & Helig); [by left|].
  apply Helig. vm_compute in Hrun. injection Hrun as _ <- _.
  split; [by eexists|done].
Defined.

(** X11.  In a group of a pass the stored details have an entry for exactly
    the member ids, and the entry of a member holds that person's name (first
    and last name joined by a space), e-mail, phone, year and program. *)
Theorem member_details_complete df groups people g :
  process_csv_data df = Ok (groups, people) → g ∈ groups →
  (∀ id, is_Some (Group.member_details g !! id) ↔ id ∈ Group.members g)
  ∧ ∀ m, m ∈ people → Person.id m ∈ Group.members g →
         Group.member_details g !! Person.id m = Some (details_of m)
         ∧ Details.name (details_of m)
           = str (Person.first m) +:+ " " +:+ str (Person.last m).
Proof.
  intros Hrun Hg.
  destruct (pass_group _ _ _ _ Hrun Hg)
    as (counter & gender & study & combo & -> & _ & _ & _ & Hnodup & Hcombo).
  simpl. split.
  - intros id. destruct (decide (id ∈ map Person.id combo)) as [Hin|Hnot].
    + split; [done|]. intros _.
      apply list_elem_of_fmap in Hin as (m & -> & Hm).
      by rewrite member_details_member.
    + rewrite member_details_other by done. split; [by intros [? ?]|done].
  - intros m Hm (m' & Hid & Hm')%list_elem_of_fmap. split; [|done].
    assert (m = m') as <-.
    { eapply pass_same_id; [exact Hrun|done| |done]. by apply Hcombo. }
    by apply member_details_member.
Qed.

Lemma member_details_complete_witness :
  match process_csv_data Sample.three with
  | Ok (g :: _, _) =>
      ∀ id, is_Some (Group.member_details g !! id) ↔ id ∈ Group.members g
  | _ => False
  end.
Proof.
  destruct (process_csv_data Sample.three) as [[[|g groups] people]|e]
    eqn:Hrun; [by vm_compute in Hrun| |by vm_compute in Hrun].
  by destruct (member_details_complete _ _ _ g Hrun) as [Hdom _]; [left|].
Defined.

(** X12.  Exporting a group of a pass loses no member: the members cell is
    the names of all its members, in member order, joined by a comma and a
    space; the leader cell is the name of the leader, or None when the group
    has no leader; the slots cell is the common slots joined the same way. *)
Theorem export_of_pass df groups people g :
  process_csv_data df = Ok (groups, people) → g ∈ groups →
  ∃ combo : list Person.t,
    combo `sublist_of` people
    ∧ Group.members g = map Person.id combo
    ∧ ExportRow.members (export_row g)
      = str_join ", " (map display_name combo)
    ∧ ExportRow.common_availabilities (export_row g)
      = str_join ", " (find_common_slots (map Person.avail combo))
    ∧ match Group.leader g with
      | Some leader =>
          ∃ m, m ∈ combo ∧ leader = Person.id m
               ∧ ExportRow.leader (export_row g) = display_name m
      | None => ExportRow.leader (export_row g) = "None"
      end.
Proof.
  intros Hrun Hg.
  destruct (pass_group _ _ _ _ Hrun Hg)
    as (counter & gender & study & combo & -> & Hsub & _ & _ & Hnodup & Hcombo).
  exists combo. split_and!; [done|done| |done|].
  - simpl. unfold member_names. simpl. f_equal.
    apply member_names_combo. intros m Hm. by apply member_details_member.
  - simpl. unfold leader_name. simpl.
    pose proof (choose_leader_spec study combo) as Hleader.
    destruct (choose_leader study combo) as [leader|]; [|done].
    destruct Hleader as (m & [Hm _]%first_such_elem & ->).
    exists m. split_and!; [done..|].
    destruct (pass_person_fields _ _ _ m Hrun) as (_ & _ & a & b & Hid);
      [by apply Hcombo|].
    rewrite member_details_member by done.
    by rewrite Hid, truthy_with_underscore.
Qed.

Lemma export_of_pass_witness :
  match process_csv_data Sample.three with
  | Ok (g :: _, people) =>
      ∃ combo : list Person.t,
        combo `sublist_of` people
        ∧ ExportRow.members (export_row g)
          = str_join ", " (map display_name combo)
  | _ => False
  end.
Proof.
  destruct (process_csv_data Sample.three) as [[[|g groups] people]|e]
    eqn:Hrun; [by vm_compute in Hrun| |by vm_compute in Hrun].
  destruct (export_of_pass _ _ _ g Hrun) as (combo & Hsub & _ & Hnames & _);
    [left|].
  exists combo. split; assumption.
Defined.

(** ** The validator on the groups of a pass *)

Section validator_on_pass.

Lemma lower_capitalize_study study :
  study ∈ FAITH_STUDIES → Py.lower_label (Py.capitalize study) = Plain study.
Proof.
  intros Hin. unfold FAITH_STUDIES in Hin. list_cases Hin; reflexivity.
Qed.

(** The people listed in a group of a pass are the people it was made of. *)
Lemma pass_group_members df gs ps counter gender study combo common q :
  process_csv_data df = Ok (gs, ps) →
  (∀ m, m ∈ combo → m ∈ ps) →
  q ∈ ps →
  Person.id q ∈ Group.members (make_group counter gender study combo common) →
  q ∈ combo.
Proof.
  intros Hrun Hcombo Hq (m & Hid & Hm)%list_elem_of_fmap.
  assert (q = m) as ->; [|done].
  eapply pass_same_id; [exact Hrun|done|by apply Hcombo|done].
Qed.

Lemma check_move_mismatch ps person from_group to_group :
  check_move ps person from_group to_group = Invalid REASON_MISMATCH ↔
  ¬ (Plain (Person.gender person) = Py.lower_label (Group.gender to_group)
     ∧ Plain <$> Person.next_study person
       = Some (Py.lower_label (Group.faith_study to_group))).
Proof.
  unfold check_move.
  destruct (decide (Plain (Person.gender person)
                    = Py.lower_label (Group.gender to_group))) as [Hg|Hg];
  destruct (decide (Plain <$> Person.next_study person
                    = Some (Py.lower_label (Group.faith_study to_group))))
    as [Hs|Hs];
  rewrite ?(bool_decide_eq_true_2 _ Hg), ?(bool_decide_eq_true_2 _ Hs),
    ?(bool_decide_eq_false_2 _ Hg), ?(bool_decide_eq_false_2 _ Hs);
  cbn [negb orb]; try (split; [by intros _ [? ?]|done]).
  split; [|by intros []].
  repeat case_bool_decide; try done.
  by destruct (find_common_slots _).
Qed.

Lemma check_move_valid ps person from_group to_group slots :
  check_move ps person from_group to_group = Valid slots →
  slots
  = find_common_slots
      (map Person.avail
         (List.filter
            (λ p, bool_decide (Person.id p ∈ Group.members to_group)) ps
          ++ [person])).
Proof.
  unfold check_move. repeat case_match; try done. by intros [= <-].
Qed.

End validator_on_pass.



(** X14.  On the groups and people of a pass, the slot list of an accepted
    move holds exactly the stored common slots of the destination group on
    which the moved person is free: the stored list of a fresh group is what
    the validator recomputes for its members. *)
Theorem validate_move_slots_on_pass df gs ps data person to_group slots :
  process_csv_data df = Ok (gs, ps) →
  groups data = gs → people data = ps →
  find_person ps (person_id data) = Some person →
  find_group gs (to_group_id data) = Some to_group →
  fst (validate_move data) = Valid slots →
  ∀ slot, slot ∈ slots ↔
          slot ∈ Group.common_availabilities to_group
          ∧ free_on (Person.avail person) slot.
Proof.
  intros Hrun Hgroups Hpeople Hperson Hto.
  rewrite validate_move_run, Hgroups, Hpeople, Hperson, Hto. cbn [fst].
  destruct (find_group gs (from_group_id data)) as [from_group|]; [|done].
  intros Hvalid slot. apply check_move_valid in Hvalid as ->.
  assert (Hto_in : to_group ∈ gs).
  { by apply find_group_first, first_such_elem in Hto as [? _]. }
  destruct (pass_group _ _ _ _ Hrun Hto_in)
    as (counter & gender & study & combo & -> & _ & Hlen & _ & _ & Hcombo).
  cbn [Group.common_availabilities make_group].
  rewrite !elem_of_find_common_slots;
    [|destruct combo; simpl in *; (lia || done)
     |by intros [_ ?]%fmap_nil_inv%app_eq_nil].
  split.
  - intros Hall. split.
    + intros avail (m & -> & Hm)%list_elem_of_fmap.
      apply Hall, list_elem_of_fmap. exists m. split; [done|].
      apply elem_of_app. left. apply list_elem_of_In, filter_In.
      destruct (Hcombo m Hm) as (Hps & _). split; [by apply list_elem_of_In|].
      apply bool_decide_eq_true. cbn [Group.members make_group].
      apply list_elem_of_fmap. by exists m.
    + apply Hall, list_elem_of_fmap. exists person. split; [done|].
      apply elem_of_app. right. by left.
  - intros [Hstored Hfree] avail (q & -> & Hq)%list_elem_of_fmap.
    apply elem_of_app in Hq as [Hq|Hq%list_elem_of_singleton];
      [|by rewrite Hq].
    apply list_elem_of_In, filter_In in Hq as [Hq Hid].
    apply list_elem_of_In in Hq. apply bool_decide_eq_true in Hid.
    apply Hstored, list_elem_of_fmap. exists q. split; [done|].
    eapply pass_group_members; [exact Hrun| |done..].
    intros m' Hm'. by apply Hcombo.
Qed.

Lemma validate_move_slots_on_pass_witness :
  match process_csv_data Sample.five with
  | Ok (gs, ps) =>
      ∀ person to_group slots,
        find_person ps "Eve_Doe_4" = Some person →
        find_group gs "G3" = Some to_group →
        fst (validate_move
               {| person_id := "Eve_Doe_4"; from_group_id := "G2";
                  to_group_id := "G3"; groups := gs; people := ps |})
        = Valid slots →
        ∀ slot, slot ∈ slots → slot ∈ Group.common_availabilities to_group
  | Raise _ => False
  end.
Proof.
  destruct (process_csv_data Sample.five) as [[gs ps]|e] eqn:Hrun;
    [|vm_compute in Hrun; discriminate Hrun].
  intros person to_group slots Hperson Hto Hvalid slot Hslot.
  apply (validate_move_slots_on_pass _ _ _
    {| person_id := "Eve_Doe_4"; from_group_id := "G2"; to_group_id := "G3";
       groups := gs; people := ps |}
    person to_group slots Hrun eq_refl eq_refl Hperson Hto Hvalid slot).
  exact Hslot.
Defined.

(** ** Outcomes of an upload *)

Lemma pass_returns_iff_helper df :
  (∃ gs ps, process_csv_data df = Ok (gs, ps)) ↔
  Forall (readable_row (availability_cols df)) (rows df).
Proof.
  rewrite <- (read_people_ok_iff _ _ []). split.
  - intros (gs & ps & [Hok _]%process_csv_data_ok). by exists ps.
  - intros [ps Hok]. exists (match_groups (bucket_people ps)), ps.
    by apply process_csv_data_ok.
Qed.

(** X15.  The upload answers, in this order of precedence: "missing
    columns" exactly when a required column is absent, listing the absent
    ones, whatever the rows hold; a processing error exactly when the
    required columns are there and some row cannot be read; success exactly
    when the required columns are there, every row can be read and there is
    at least one row, and then with the result of the pass, a people count
    equal to the number of rows and the number of groups as group count. *)
Theorem upload_file_outcomes df :
  let present := ∀ col, col ∈ REQUIRED_COLUMNS → col ∈ columns df in
  let readable := Forall (readable_row (availability_cols df)) (rows df) in
  ((∃ missing, upload_file df = UploadError 400 (MissingColumns missing)) ↔
   ¬ present)
  ∧ (∀ missing, upload_file df = UploadError 400 (MissingColumns missing) →
       ∀ col, col ∈ missing ↔ col ∈ REQUIRED_COLUMNS ∧ (col ∉ columns df))
  ∧ ((∃ e, upload_file df = UploadError 500 (ProcessingError e)) ↔
     present ∧ ¬ readable)
  ∧ ((∃ gs ps n k, upload_file df = UploadSuccess gs ps n k) ↔
     present ∧ readable ∧ rows df ≠ [])
  ∧ (∀ gs ps n k, upload_file df = UploadSuccess gs ps n k →
       process_csv_data df = Ok (gs, ps)
       ∧ n = length (rows df) ∧ k = length gs).
Proof.
  cbv zeta.
  pose proof (missing_columns_none df) as Hmissing.
  pose proof (pass_returns_iff_helper df) as Hreadable.
  unfold upload_file.
  destruct (List.filter _ REQUIRED_COLUMNS) as [|c missing] eqn:Hfilter.
  - assert (Hpresent : ∀ col, col ∈ REQUIRED_COLUMNS → col ∈ columns df)
      by by apply Hmissing.
    destruct (process_csv_data df) as [[gs ps]|e] eqn:Hrun.
    + assert (Hok : Forall (readable_row (availability_cols df)) (rows df)).
      { apply Hreadable. by exists gs, ps. }
      assert (Hlen : length ps = length (rows df)).
      { by apply pass_people in Hrun as [? _]. }
      destruct ps as [|p ps].
      * split_and!.
        -- split; [by intros [? ?]|by intros H; destruct H].
        -- done.
        -- split; [by intros [? ?]|by intros [_ H]; destruct H].
        -- split; [by intros (? & ? & ? & ? & ?)|].
           intros (_ & _ & Hrows). destruct (rows df); done.
        -- done.
      * split_and!.
        -- split; [by intros [? ?]|by intros H; destruct H].
        -- done.
        -- split; [by intros [? ?]|by intros [_ H]; destruct H].
        -- split; [|by eauto]. intros _. split_and!; [done..|].
           destruct (rows df); done.
        -- intros gs' ps' n k [= <- <- <- <-]. done.
    + assert (Hbad : ¬ Forall (readable_row (availability_cols df)) (rows df)).
      { intros (gs & ps & Hok)%Hreadable. congruence. }
      split_and!.
      * split; [by intros [? ?]|by intros H; destruct H].
      * done.
      * split; [done|]. intros _. by exists e.
      * split; [by intros (? & ? & ? & ? & ?)|by intros (_ & ? & _)].
      * done.
  - assert (Habsent : ¬ ∀ col, col ∈ REQUIRED_COLUMNS → col ∈ columns df).
    { intros Hall%Hmissing. done. }
    split_and!.
    + split; [done|]. intros _. by eexists.
    + intros l [= <-] col. rewrite <- Hfilter.
      rewrite list_elem_of_In, filter_In, <- list_elem_of_In.
      by rewrite negb_true_iff, bool_decide_eq_false.
    + split; [by intros [? ?]|by intros [? _]].
    + split; [by intros (? & ? & ? & ? & ?)|by intros [? _]].
    + done.
Qed.

Lemma upload_file_outcomes_witness :
  (∃ e, upload_file Sample.blank_gender = UploadError 500 (ProcessingError e))
  ∧ (∃ gs ps n k, upload_file Sample.three = UploadSuccess gs ps n k).
Proof.
  split.
  - apply (upload_file_outcomes Sample.blank_gender). split.
    + apply missing_columns_none. vm_compute. reflexivity.
    + intros Hall. apply Forall_cons in Hall as [_ Hall].
      apply Forall_cons in Hall as [[[s Hs] _] _].
      vm_compute in Hs. discriminate Hs.
  - apply (upload_file_outcomes Sample.three). split_and!.
    + apply missing_columns_none. vm_compute. reflexivity.
    + repeat constructor; try (eexists; vm_compute; reflexivity);
        intros col Hcol; vm_compute in Hcol; list_cases Hcol;
        vm_compute; eexists; reflexivity.
    + discriminate.
Defined.

(** ** Export of groups that were edited *)

Lemma member_names_length (d : gmap string Details.t) (ids : list string) :
  length (omap (λ id, Details.name <$> d !! id) ids) ≤ length ids
  ∧ (length (omap (λ id, Details.name <$> d !! id) ids) = length ids ↔
     ∀ id, id ∈ ids → is_Some (d !! id)).
Proof.
  induction ids as [|id ids [IHle IHeq]].
  - split; [done|]. split; [by intros _ id ?%elem_of_nil|done].
  - assert (Hstep : omap (λ id, Details.name <$> d !! id) (id :: ids)
      = match d !! id with
        | Some details =>
            Details.name details :: omap (λ id, Details.name <$> d !! id) ids
        | None => omap (λ id, Details.name <$> d !! id) ids
        end).
    { cbn. by destruct (d !! id). }
    rewrite Hstep. clear Hstep.
    destruct (d !! id) as [details|] eqn:Hid; cbn [length].
    + split; [lia|]. split.
      * intros Hlen id' [->|Hin]%elem_of_cons; [rewrite Hid; by eexists|].
        apply IHeq; [lia|done].
      * intros Hall. f_equal. apply IHeq. intros id' Hin. apply Hall. by right.
    + split; [lia|]. split; [lia|].
      intros Hall. destruct (Hall id) as [? Hsome]; [by left|]. congruence.
Qed.

(** X16.  The export makes one row per group, in order.  For any group, also
    one edited after the pass, the members cell has a name only for the
    member ids that have an entry in the stored details: the others are left
    out without notice, so all members are listed exactly when every member
    id has an entry.  A leader id that is empty exports as None, and one
    without an entry as Unknown. *)
Theorem export_edited_group (gs : list Group.t) (g : Group.t) :
  length (export_groups gs) = length gs
  ∧ length (member_names g) ≤ length (Group.members g)
  ∧ (length (member_names g) = length (Group.members g) ↔
     ∀ id, id ∈ Group.members g → is_Some (Group.member_details g !! id))
  ∧ (∀ leader, Group.leader g = Some leader → leader ≠ "" →
       Group.member_details g !! leader = None →
       ExportRow.leader (export_row g) = "Unknown")
  ∧ (Group.leader g = Some "" → ExportRow.leader (export_row g) = "None").
Proof.
  split_and!.
  - unfold export_groups. by rewrite length_map.
  - apply member_names_length.
  - apply member_names_length.
  - intros leader Hleader Hne Hnone. simpl. unfold leader_name.
    rewrite Hleader, Hnone. by destruct leader.
  - intros Hleader. simpl. unfold leader_name. by rewrite Hleader.
Qed.

Lemma export_edited_group_witness :
  ExportRow.leader
    (export_row (Sample.group "G1" ["ann"; "bea"] [Sample.SLOT]))
  = "None"
  ∧ length (member_names (Sample.group "G1" ["ann"; "bea"] [Sample.SLOT])) < 2.
Proof.
  pose proof (export_edited_group []
                (Sample.group "G1" ["ann"; "bea"] [Sample.SLOT]))
    as (_ & Hle & Hall & _ & _).
  split; [reflexivity|].
  assert (Hnot : length (member_names
                   (Sample.group "G1" ["ann"; "bea"] [Sample.SLOT])) ≠ 2).
  { intros Heq. destruct (proj1 Hall Heq "ann") as [d Hd]; [by left|].
    vm_compute in Hd. discriminate Hd. }
  simpl in Hle. lia.
Defined.

(** ** Buckets as a partition *)

(** X17.  The buckets split the eligible people of a cohort: bucket keys are
    pairwise different, no bucket is empty, a bucket holds people of the
    cohort in cohort order, a person is in some bucket exactly when it is
    eligible, and then only in the bucket of its own gender and next
    study. *)
Theorem buckets_partition (cohort : list Person.t) :
  NoDup (map fst (bucket_people cohort))
  ∧ (∀ key members,
       (key, members) ∈ bucket_people cohort →
       members ≠ [] ∧ members `sublist_of` cohort)
  ∧ ∀ p, p ∈ cohort →
         (eligible p = true ↔
          ∃ key members, (key, members) ∈ bucket_people cohort ∧ p ∈ members)
         ∧ ∀ key members,
             (key, members) ∈ bucket_people cohort → p ∈ members →
             Person.gender p = key.1 ∧ Person.next_study p = Some key.2.
Proof.
  destruct (bucket_people_bucketed cohort) as [Hnodup Hspec].
  split_and!; [done| |].
  - intros key members [Hne ->]%Hspec. split; [done|apply filter_sublist].
  - intros p Hp. split.
    + split.
      * intros Helig.
        exists (Person.gender p, default "" (Person.next_study p)),
          (List.filter
             (in_bucket (Person.gender p, default "" (Person.next_study p)))
             cohort).
        assert (Hin : p ∈ List.filter
          (in_bucket (Person.gender p, default "" (Person.next_study p)))
          cohort).
        { apply list_elem_of_In, filter_In. split; [by apply list_elem_of_In|].
          by apply in_bucket_own. }
        split; [|done]. apply Hspec. split; [|done].
        intros Hnil. rewrite Hnil in Hin. by apply elem_of_nil in Hin.
      * intros (key & members & [_ ->]%Hspec & Hin).
        apply list_elem_of_In, filter_In in Hin as [_ Hin].
        by apply in_bucket_eligible in Hin as [? _].
    + intros key members [_ ->]%Hspec Hin.
      apply list_elem_of_In, filter_In in Hin as [_ Hin].
      by apply in_bucket_eligible in Hin as (_ & ? & ?).
Qed.

Lemma buckets_partition_witness :
  ∃ key members,
    (key, members) ∈ bucket_people Sample.cohort
    ∧ Sample.person "cat" ∈ members.
Proof.
  destruct (buckets_partition Sample.cohort) as (_ & _ & Hin).
  destruct (Hin (Sample.person "cat")) as [Helig _].
  - unfold Sample.cohort. list_mem.
  - apply Helig. reflexivity.
Defined.
